(** * Character: animated sprite widget (character.py)

    A shallow embedding of [AnimationFrame], [Animation] and [Character]
    from [character.py], together with the small part of the host toolkit
    the widget drives (widget geometry, the [place]/[grid]/[configure]
    calls, and the [after] timer queue of the event loop).

    Python objects that are shared by reference (frame objects and the
    lists of frames handed to [Animation]) live in a store and are named
    by their address; integers are unbounded ([Z]); exceptions are an
    outcome next to the state, which keeps every mutation done before
    the raise. *)

From stdpp Require Import gmap strings list fin_maps pretty.
From Stdlib Require Import ZArith Lia.

Local Open Scope Z_scope.

(** ** Python outcomes and the state-and-exception monad *)

Inductive exn :=
  | ValueError (msg : string)
  | RuntimeError (msg : string)
  | KeyError (key : string)
  | IndexError
  | FileNotFoundError (path : string)
  | SystemError (msg : string).

Inductive outcome (A : Type) :=
  | Returned (a : A)
  | Raised (e : exn).
Arguments Returned {A} a.
Arguments Raised {A} e.

Definition M (S A : Type) : Type := S → outcome A * S.

Definition ret {S A} (a : A) : M S A := λ s, (Returned a, s).
Definition raise {S A} (e : exn) : M S A := λ s, (Raised e, s).
Definition bind {S A B} (m : M S A) (k : A → M S B) : M S B :=
  λ s, match m s with
       | (Returned a, s') => k a s'
       | (Raised e, s') => (Raised e, s')
       end.
Definition get {S} : M S S := λ s, (Returned s, s).
Definition modify {S} (f : S → S) : M S unit := λ s, (Returned tt, f s).

Notation "x <- m ;; k" := (bind m (λ x, k))
  (at level 100, m at next level, right associativity,
   format "'[v' x  <-  m  ;;  '/' k ']'").
Notation "m ;;; k" := (bind m (λ _, k))
  (at level 100, right associativity,
   format "'[v' m  ;;;  '/' k ']'").

(** [l[i]] on a Python list: negative indices count from the end, and an
    index outside [-len, len) raises [IndexError]. *)
Definition getitem {S A} (l : list A) (i : Z) : M S A :=
  let n := Z.of_nat (length l) in
  let j := if i <? 0 then i + n else i in
  if (j <? 0) || (n <=? j) then raise IndexError
  else match l !! Z.to_nat j with
       | Some x => ret x
       | None => raise IndexError
       end.

Definition len {A} (l : list A) : Z := Z.of_nat (length l).

(** ** The store of shared objects *)

Definition loc := nat.

Record AnimationFrame := {
  filename : string;
  duration : Z;
}.

(** [frames] is a reference to the list object the caller passed in. *)
Record Animation := {
  name : string;
  frames : loc;
}.

(** ** The host toolkit, as far as the widget uses it *)

(** What Tk reports for a frame widget. *)
Record Widget := {
  winfo_rootx : Z;
  winfo_rooty : Z;
  winfo_width : Z;
  winfo_height : Z;
}.

Record CTkImage := {
  image_file : string;
  image_size : Z * Z;
}.

(** Calls made on the toolkit, in the order they happen. *)
Inductive GuiCall :=
  | CreateWrapper (master : Widget) (fg_color : string) (width height : Z)
  | CreateLabel (fg_color : string) (width height : Z)
  | LabelGrid
  | WrapperRowconfigure
  | WrapperColumnconfigure
  | WrapperGrid (kwargs : list (string * string))
  | UpdateIdletasks
  | Place (x y : Z)
  | PlaceIn (f : Widget) (x y : Z)
  | PlaceForget
  | GridForget
  | Configure (image : CTkImage)
  | After (ms : Z) (frame_index : Z).

(** A pending [after] callback.  The only callback the widget schedules
    is the closure [run] of [play_animation], which captures the list
    [frames] and is applied to [frame_index]. *)
Record Timer := {
  due : Z;
  cb_frames : loc;
  cb_frame_index : Z;
}.

Record World := {
  frame_objs : list AnimationFrame;
  list_objs : list (list loc);
  files : gset string;
  clock : Z;
  timers : list Timer;
  gui : list (Z * GuiCall);
  reported : list exn;
}.

Definition with_frame_objs (v : list AnimationFrame) (w : World) : World :=
  {| frame_objs := v; list_objs := list_objs w; files := files w;
     clock := clock w; timers := timers w; gui := gui w;
     reported := reported w |}.
Definition with_list_objs (v : list (list loc)) (w : World) : World :=
  {| frame_objs := frame_objs w; list_objs := v; files := files w;
     clock := clock w; timers := timers w; gui := gui w;
     reported := reported w |}.
Definition with_clock (v : Z) (w : World) : World :=
  {| frame_objs := frame_objs w; list_objs := list_objs w; files := files w;
     clock := v; timers := timers w; gui := gui w;
     reported := reported w |}.
Definition with_timers (v : list Timer) (w : World) : World :=
  {| frame_objs := frame_objs w; list_objs := list_objs w; files := files w;
     clock := clock w; timers := v; gui := gui w;
     reported := reported w |}.
Definition with_gui (v : list (Z * GuiCall)) (w : World) : World :=
  {| frame_objs := frame_objs w; list_objs := list_objs w; files := files w;
     clock := clock w; timers := timers w; gui := v;
     reported := reported w |}.
Definition with_reported (v : list exn) (w : World) : World :=
  {| frame_objs := frame_objs w; list_objs := list_objs w; files := files w;
     clock := clock w; timers := timers w; gui := gui w;
     reported := v |}.

(** A toolkit call, stamped with the time of the event loop. *)
Definition call (g : GuiCall) (w : World) : World :=
  with_gui (gui w ++ [(clock w, g)]) w.

(** The timer queue is kept in firing order: a new timer goes before the
    first one that is strictly later, so equal times fire in the order
    they were scheduled. *)
Fixpoint enqueue (t : Timer) (q : list Timer) : list Timer :=
  match q with
  | [] => [t]
  | t' :: q' => if due t <? due t' then t :: q else t' :: enqueue t q'
  end.

(** [widget.after(ms, run, frame_index)]; Tk takes a negative delay as 0. *)
Definition after (ms : Z) (fl : loc) (frame_index : Z) (w : World) : World :=
  let t := {| due := clock w + Z.max 0 ms; cb_frames := fl;
              cb_frame_index := frame_index |} in
  with_timers (enqueue t (timers w)) (call (After ms frame_index) w).

(** ** AnimationFrame and Animation *)

Definition default_duration : Z := 250.

(** [AnimationFrame(filename, duration=250)]: a new object in the store. *)
Definition AnimationFrame_init (filename : string) (duration : option Z)
  : M World loc :=
  w <- get ;;
  modify (with_frame_objs
            (frame_objs w ++ [ {| filename := filename;
                                  duration := default default_duration duration |} ])) ;;;
  ret (length (frame_objs w)).

(** A list display [[f0, f1, ...]]: a new list object in the store. *)
Definition new_list (items : list loc) : M World loc :=
  w <- get ;;
  modify (with_list_objs (list_objs w ++ [items])) ;;;
  ret (length (list_objs w)).

(** Reading through references.  Python has no dangling references; an
    address outside the store is reported as [SystemError] so that the
    functions stay total. *)
Definition deref_list (l : loc) : M World (list loc) :=
  w <- get ;;
  match list_objs w !! l with
  | Some fl => ret fl
  | None => raise (SystemError "dangling list reference")
  end.

Definition deref_frame (f : loc) : M World AnimationFrame :=
  w <- get ;;
  match frame_objs w !! f with
  | Some fr => ret fr
  | None => raise (SystemError "dangling frame reference")
  end.

(** [Animation(name, frames)] *)
Definition Animation_init (name : string) (frames : loc) : M World Animation :=
  fl <- deref_list frames ;;
  if bool_decide (fl = [])
  then raise (ValueError ("The animation '" +:+ name +:+ "' cannot be empty."))
  else ret {| name := name; frames := frames |}.

(** ** Character *)

Record Character := {
  master : Widget;
  _background_color : string;
  animations : gmap string loc;
  position : Z * Z;
  current_frame_index : Z;
  images_path : string;
  size : Z;
  frame : option Widget;
  grid_cells : option (list (list Widget));
  _active_animation_name : option string;
  _active_image : option CTkImage;
}.

Definition with_animations (v : gmap string loc) (c : Character) : Character :=
  {| master := master c; _background_color := _background_color c;
     animations := v; position := position c;
     current_frame_index := current_frame_index c;
     images_path := images_path c; size := size c; frame := frame c;
     grid_cells := grid_cells c;
     _active_animation_name := _active_animation_name c;
     _active_image := _active_image c |}.
Definition with_position (v : Z * Z) (c : Character) : Character :=
  {| master := master c; _background_color := _background_color c;
     animations := animations c; position := v;
     current_frame_index := current_frame_index c;
     images_path := images_path c; size := size c; frame := frame c;
     grid_cells := grid_cells c;
     _active_animation_name := _active_animation_name c;
     _active_image := _active_image c |}.
Definition with_active_animation_name (v : option string) (c : Character)
  : Character :=
  {| master := master c; _background_color := _background_color c;
     animations := animations c; position := position c;
     current_frame_index := current_frame_index c;
     images_path := images_path c; size := size c; frame := frame c;
     grid_cells := grid_cells c;
     _active_animation_name := v;
     _active_image := _active_image c |}.
Definition with_active_image (v : option CTkImage) (c : Character) : Character :=
  {| master := master c; _background_color := _background_color c;
     animations := animations c; position := position c;
     current_frame_index := current_frame_index c;
     images_path := images_path c; size := size c; frame := frame c;
     grid_cells := grid_cells c;
     _active_animation_name := _active_animation_name c;
     _active_image := v |}.

(** A method runs on the object and the world around it. *)
Definition St : Type := Character * World.

Definition self : M St Character := λ s, (Returned (fst s), s).
Definition set_self (f : Character → Character) : M St unit :=
  modify (λ s, (f (fst s), snd s)).
Definition tk (f : World → World) : M St unit :=
  modify (λ s, (fst s, f (snd s))).
Definition in_world {A} (m : M World A) : M St A :=
  λ s, match m (snd s) with (o, w') => (o, (fst s, w')) end.

(** [_register_animations] takes the animations as its variadic arguments. *)
Fixpoint _register_animations (anims : list Animation) : M St unit :=
  match anims with
  | [] => ret tt
  | animation :: rest =>
      c <- self ;;
      match animations c !! name animation with
      | Some _ =>
          raise (ValueError ("Duplicate animation '" +:+ name animation +:+ "'."))
      | None =>
          set_self (with_animations
                      (<[name animation := frames animation]> (animations c))) ;;;
          _register_animations rest
      end
  end.

Definition default_position : Z * Z := (0, 0).
Definition default_images_path : string := "./assets/images/".
Definition default_size : Z := 100.
Definition default_bg_color : string := "transparent".

(** [Character(master, animations, position, images_path, size, bg_color,
    frame, grid_cells)].  The object exists once the attributes are set;
    a raise from the registration leaves the caller without it. *)
Definition Character_init (master : Widget)
    (anims : option (list Animation)) (position : Z * Z)
    (images_path : string) (size : Z) (bg_color : string)
    (frame : option Widget) (grid_cells : option (list (list Widget)))
  : M World Character :=
  λ w,
    let w1 := call WrapperColumnconfigure
               (call WrapperRowconfigure
                 (call LabelGrid
                   (call (CreateLabel bg_color size size)
                     (call (CreateWrapper master bg_color size size) w)))) in
    let c := {| master := master; _background_color := bg_color;
                animations := ∅; position := position;
                current_frame_index := 0; images_path := images_path;
                size := size; frame := frame; grid_cells := grid_cells;
                _active_animation_name := None; _active_image := None |} in
    match anims with
    | Some (a :: rest) =>
        match _register_animations (a :: rest) (c, w1) with
        | (Returned _, (c', w')) => (Returned c', w')
        | (Raised e, (_, w')) => (Raised e, w')
        end
    | _ => (Returned c, w1)
    end.

(** The body of the closure [run(frame_index)] inside [play_animation],
    closed over the list [frames]. *)
Definition run (fl : loc) (frame_index : Z) : M St unit :=
  c <- self ;;
  frames <- in_world (deref_list fl) ;;
  f <- getitem frames frame_index ;;
  fr <- in_world (deref_frame f) ;;
  w <- in_world get ;;
  let path := images_path c +:+ filename fr in
  if bool_decide (path ∈ files w) then
    let img := {| image_file := path; image_size := (size c, size c) |} in
    set_self (with_active_image (Some img)) ;;;
    tk (call (Configure img)) ;;;
    if frame_index <? len frames - 1
    then
      f' <- getitem frames frame_index ;;
      fr' <- in_world (deref_frame f') ;;
      tk (after (duration fr') fl (frame_index + 1))
    else ret tt
  else raise (FileNotFoundError path).

(** [play_animation(name)] *)
Definition play_animation (name : string) : M St unit :=
  set_self (with_active_animation_name (Some name)) ;;;
  c <- self ;;
  match animations c !! name with
  | None => raise (KeyError name)
  | Some fl =>
      frames <- in_world (deref_list fl) ;;
      f0 <- getitem frames 0 ;;
      fr0 <- in_world (deref_frame f0) ;;
      tk (after (duration fr0) fl 0)
  end.

(** [show] forwards its keyword arguments to [grid]. *)
Definition show (kwargs : list (string * string)) : M St unit :=
  tk (call (WrapperGrid kwargs)).

(** [_update_position()] *)
Definition _update_position : M St unit :=
  c <- self ;;
  match grid_cells c with
  | Some grid =>
      let '(row, col) := position c in
      if row <? 0 then ret tt
      else if col <? 0 then ret tt
      else if len grid <=? row then ret tt
      else
        r <- getitem grid row ;;
        if len r <=? col then ret tt
        else
          r' <- getitem grid row ;;
          target_cell <- getitem r' col ;;
          let parent := master c in
          tk (call UpdateIdletasks) ;;;
          let cell_x := winfo_rootx target_cell - winfo_rootx parent in
          let cell_y := winfo_rooty target_cell - winfo_rooty parent in
          let offset_x := (winfo_width target_cell - size c) / 2 in
          let offset_y := (winfo_height target_cell - size c) / 2 in
          tk (call (Place (cell_x + offset_x) (cell_y + offset_y)))
  | None =>
      match frame c with
      | Some f =>
          let '(x, y) := position c in
          tk (call PlaceForget) ;;;
          tk (call GridForget) ;;;
          tk (call (PlaceIn f x y))
      | None => raise (RuntimeError "No frame or grid_cells was defined.")
      end
  end.

(** [set_position(position)] *)
Definition set_position (pos : Z * Z) : M St bool :=
  c <- self ;;
  let apply :=
    set_self (with_position pos) ;;;
    _update_position ;;;
    ret true in
  match grid_cells c with
  | Some grid =>
      let '(row, col) := pos in
      let rows := len grid in
      cols <- (if rows =? 0 then ret 0
               else r0 <- getitem grid 0 ;; ret (len r0)) ;;
      if negb ((0 <=? row) && (row <? rows) && ((0 <=? col) && (col <? cols)))
      then ret false
      else apply
  | None => apply
  end.

(** [move(offset)] *)
Definition move (offset : Z * Z) : M St bool :=
  let '(dx, dy) := offset in
  c <- self ;;
  let '(x, y) := position c in
  set_position (x + dx, y + dy).

(** [get_animation_frames(name)]: the list object itself, not a copy. *)
Definition get_animation_frames (name : string) : M St loc :=
  c <- self ;;
  match animations c !! name with
  | Some fl => ret fl
  | None => raise (KeyError name)
  end.

(** The [current_position] property. *)
Definition current_position : M St (Z * Z) :=
  c <- self ;;
  ret (position c).

(** ** The event loop *)

(** One turn of [mainloop] with a timer pending: the first timer of the
    queue fires, at its due time.  An exception escaping the callback is
    reported by Tk and the loop goes on.  [None] when nothing is pending. *)
Definition tick (s : St) : option St :=
  match timers (snd s) with
  | [] => None
  | t :: q =>
      let w := with_clock (Z.max (clock (snd s)) (due t))
                 (with_timers q (snd s)) in
      match run (cb_frames t) (cb_frame_index t) (fst s, w) with
      | (Returned _, s') => Some s'
      | (Raised e, (c', w')) => Some (c', with_reported (reported w' ++ [e]) w')
      end
  end.

(** The loop, for at most [fuel] timers; it stops when none is pending. *)
Fixpoint mainloop (fuel : nat) (s : St) : St :=
  match fuel with
  | O => s
  | S fuel' =>
      match tick s with
      | Some s' => mainloop fuel' s'
      | None => s
      end
  end.

(** ** Concrete objects used to run the definitions *)

Definition empty_world : World :=
  {| frame_objs := []; list_objs := []; files := ∅; clock := 0;
     timers := []; gui := []; reported := [] |}.

Definition cell (x y : Z) : Widget :=
  {| winfo_rootx := x; winfo_rooty := y; winfo_width := 64; winfo_height := 64 |}.

Definition window : Widget :=
  {| winfo_rootx := 0; winfo_rooty := 0; winfo_width := 640; winfo_height := 480 |}.

(** A 2 x 3 grid, and a ragged one whose second row is shorter. *)
Definition grid23 : list (list Widget) :=
  [ [cell 0 0; cell 64 0; cell 128 0]; [cell 0 64; cell 64 64; cell 128 64] ].
Definition ragged : list (list Widget) :=
  [ [cell 0 0; cell 64 0; cell 128 0]; [cell 0 64] ].

Definition blank (frame : option Widget)
    (grid_cells : option (list (list Widget))) : Character :=
  {| master := window; _background_color := default_bg_color;
     animations := ∅; position := default_position;
     current_frame_index := 0; images_path := default_images_path;
     size := 54; frame := frame; grid_cells := grid_cells;
     _active_animation_name := None; _active_image := None |}.

(** A small session: three frames, one list of two and an empty list. *)
Definition demo_world : World :=
  {| frame_objs := [ {| filename := "blink_0001.png"; duration := 100 |};
                     {| filename := "blink_0002.png"; duration := 200 |};
                     {| filename := "look_0001.png"; duration := 250 |} ];
     list_objs := [ [0%nat; 1%nat]; []; [2%nat] ];
     files := {[ "./assets/images/blink_0001.png";
                 "./assets/images/blink_0002.png";
                 "./assets/images/look_0001.png" ]};
     clock := 0; timers := []; gui := []; reported := [] |}.

Definition blink : Animation := {| name := "blink"; frames := 0%nat |}.
Definition look : Animation := {| name := "look"; frames := 2%nat |}.
Definition blink_again : Animation := {| name := "blink"; frames := 2%nat |}.

Definition demo_character : Character :=
  with_animations (<["blink" := 0%nat]> (<["look" := 2%nat]> ∅))
    (blank (Some window) None).

(** ** Bounds of the grid as [set_position] reads them *)

Definition grid_cols (grid : list (list Widget)) : Z :=
  match grid with
  | [] => 0
  | r0 :: _ => len r0
  end.

Definition in_grid_bounds (grid : list (list Widget)) (pos : Z * Z) : Prop :=
  (0 ≤ fst pos < len grid) ∧ (0 ≤ snd pos < grid_cols grid).

Definition rectangular (grid : list (list Widget)) : Prop :=
  ∀ r, r ∈ grid → len r = grid_cols grid.

Definition has_cell (grid : list (list Widget)) (pos : Z * Z) : Prop :=
  0 ≤ fst pos ∧ 0 ≤ snd pos ∧
  ∃ r t, grid !! Z.to_nat (fst pos) = Some r ∧ r !! Z.to_nat (snd pos) = Some t.

(** ** Registration calls and the constructor, taken apart *)

(** The calls of a session in order; a call that raises keeps what it
    registered before the raise, as Python does. *)
Definition register_calls (calls : list (list Animation)) (s : St) : St :=
  foldl (λ s anims, snd (_register_animations anims s)) s calls.

(** The first animation of a list that bears a given name. *)
Definition first_named (n : string) (anims : list Animation) : option Animation :=
  find (λ a, bool_decide (name a = n)) anims.

(** The arguments of one call that get registered when the names in
    [taken] are in the registry: those before the first argument whose
    name is taken, by the registry or by an argument before it. *)
Fixpoint admitted (taken : gset string) (anims : list Animation)
  : list Animation :=
  match anims with
  | [] => []
  | a :: rest =>
      if decide (name a ∈ taken) then []
      else a :: admitted ({[name a]} ∪ taken) rest
  end.

(** The same along a sequence of calls, each call starting from what the
    calls before it have left. *)
Fixpoint admitted_calls (taken : gset string) (calls : list (list Animation))
  : list Animation :=
  match calls with
  | [] => []
  | anims :: calls' =>
      admitted taken anims ++
      admitted_calls (list_to_set (name <$> admitted taken anims) ∪ taken) calls'
  end.

(** The object [Character_init] builds before it registers anything. *)
Definition fresh_character (master : Widget) (position : Z * Z)
    (images_path : string) (size : Z) (bg_color : string)
    (frame : option Widget) (grid_cells : option (list (list Widget)))
  : Character :=
  {| master := master; _background_color := bg_color;
     animations := ∅; position := position;
     current_frame_index := 0; images_path := images_path;
     size := size; frame := frame; grid_cells := grid_cells;
     _active_animation_name := None; _active_image := None |}.

Definition init_calls (master : Widget) (bg_color : string) (size : Z)
    (w : World) : World :=
  call WrapperColumnconfigure
    (call WrapperRowconfigure
      (call LabelGrid
        (call (CreateLabel bg_color size size)
          (call (CreateWrapper master bg_color size size) w)))).

(** The animations given to the constructor, [None] being none. *)
Definition given (anims : option (list Animation)) : list Animation :=
  default [] anims.

(** ** Reading a playback off the log *)

(** The image [run] builds for a frame. *)
Definition image_of (c : Character) (fr : AnimationFrame) : CTkImage :=
  {| image_file := images_path c +:+ filename fr;
     image_size := (size c, size c) |}.

(** The toolkit calls of a playback that starts its first swap at time
    [t] with frame number [i]: one [configure] per frame and, after every
    frame but the last, the [after] that schedules the next. *)
Fixpoint playback (mk : AnimationFrame → CTkImage) (t i : Z)
    (frs : list AnimationFrame) : list (Z * GuiCall) :=
  match frs with
  | [] => []
  | fr :: rest =>
      (t, Configure (mk fr)) ::
      match rest with
      | [] => []
      | _ :: _ =>
          (t, After (duration fr) (i + 1)) ::
          playback mk (t + Z.max 0 (duration fr)) (i + 1) rest
      end
  end.

(** Readings of a log: the image swaps with their times, the timers
    scheduled (delay and frame index), and for how long each displayed
    image stays before the next swap ([None]: it is not replaced). *)
Definition swaps (log : list (Z * GuiCall)) : list (Z * CTkImage) :=
  omap (λ e, match snd e with
             | Configure img => Some (fst e, img)
             | _ => None
             end) log.

Definition scheduled (log : list (Z * GuiCall)) : list (Z * Z) :=
  omap (λ e, match snd e with
             | After ms i => Some (ms, i)
             | _ => None
             end) log.

Fixpoint shown_durations (sw : list (Z * CTkImage)) : list (option Z) :=
  match sw with
  | [] => []
  | (t, _) :: rest =>
      match rest with
      | [] => None
      | (t', _) :: _ => Some (t' - t)
      end :: shown_durations rest
  end.

(** One turn of the loop on the pending timer of a playback: the frame
    is shown and, unless it is the last, the next one is scheduled. *)
Definition after_frame (c : Character) (w : World) (fl : loc) (i t : Z)
    (fr : AnimationFrame) (more : bool) : St :=
  let w0 := with_clock (Z.max (clock w) t) (with_timers [] w) in
  (with_active_image (Some (image_of c fr)) c,
   if more
   then after (duration fr) fl (i + 1) (call (Configure (image_of c fr)) w0)
   else call (Configure (image_of c fr)) w0).

(** ** What an operation may do to the state *)

(** [keeps R m]: however [m] ends, by return or by raise, the state it
    leaves is related by [R] to the state it started from. *)
Definition keeps {S A} (R : relation S) (m : M S A) : Prop :=
  ∀ s o s', m s = (o, s') → R s s'.

Definition same_store (w w' : World) : Prop :=
  frame_objs w' = frame_objs w ∧ list_objs w' = list_objs w.

Definition store_kept (s s' : St) : Prop := same_store (snd s) (snd s').

(** What a program can do with the classes of the module, on one
    character and the world around it. *)
Inductive Op :=
  | NewAnimationFrame (filename : string) (duration : option Z)
  | NewList (items : list loc)
  | NewAnimation (name : string) (frames : loc)
  | PlayAnimation (name : string)
  | Show (kwargs : list (string * string))
  | SetPosition (pos : Z * Z)
  | Move (offset : Z * Z)
  | RegisterAnimations (anims : list Animation)
  | GetAnimationFrames (name : string)
  | CurrentPosition
  | Tick.

(** The operations that create an object; the others work on objects
    that exist. *)
Definition creates (op : Op) : bool :=
  match op with
  | NewAnimationFrame _ _ | NewList _ => true
  | _ => false
  end.

(** The state an operation leaves, its result or exception dropped. *)
Definition perform (op : Op) (s : St) : St :=
  match op with
  | NewAnimationFrame filename duration =>
      snd (in_world (AnimationFrame_init filename duration) s)
  | NewList items => snd (in_world (new_list items) s)
  | NewAnimation name frames => snd (in_world (Animation_init name frames) s)
  | PlayAnimation name => snd (play_animation name s)
  | Show kwargs => snd (show kwargs s)
  | SetPosition pos => snd (set_position pos s)
  | Move offset => snd (move offset s)
  | RegisterAnimations anims => snd (_register_animations anims s)
  | GetAnimationFrames name => snd (get_animation_frames name s)
  | CurrentPosition => snd (current_position s)
  | Tick => default s (tick s)
  end.

Definition session (ops : list Op) (s : St) : St :=
  foldl (λ s op, perform op s) s ops.

(** Objects are only added at the end of the store. *)
Definition store_grows (w w' : World) : Prop :=
  frame_objs w `prefix_of` frame_objs w' ∧ list_objs w `prefix_of` list_objs w'.

(** ** Further readings of the state, used by the properties below *)

(** [l[i]] as a value: the element [getitem] returns, [None] where it
    raises [IndexError]. *)
Definition index {A} (l : list A) (i : Z) : option A :=
  let n := Z.of_nat (length l) in
  let j := if i <? 0 then i + n else i in
  if (j <? 0) || (n <=? j) then None else l !! Z.to_nat j.

(** The turns of the loop a pending timer can still cause: its own, and
    one for each frame after its index. *)
Definition chain_length (w : World) (t : Timer) : nat :=
  Z.to_nat (Z.max 1 (len (default [] (list_objs w !! cb_frames t))
                     - cb_frame_index t)).

Definition pending_work (s : St) : nat :=
  sum_list (chain_length (snd s) <$> timers (snd s)).

(** The demo session with the second image of "blink" absent from disk. *)
Definition demo_world_incomplete : World :=
  {| frame_objs := frame_objs demo_world; list_objs := list_objs demo_world;
     files := {[ "./assets/images/blink_0001.png";
                 "./assets/images/look_0001.png" ]};
     clock := 0; timers := []; gui := []; reported := [] |}.

(** Where [_update_position] puts the wrapper for a cell: the cell's
    corner relative to the parent, plus half the room the cell leaves. *)
Definition cell_place (c : Character) (target_cell : Widget) : Z * Z :=
  (winfo_rootx target_cell - winfo_rootx (master c)
     + (winfo_width target_cell - size c) / 2,
   winfo_rooty target_cell - winfo_rooty (master c)
     + (winfo_height target_cell - size c) / 2).

(** The toolkit calls that neither swap the image nor schedule a timer. *)
Definition quiet (g : GuiCall) : bool :=
  match g with
  | Configure _ | After _ _ => false
  | _ => true
  end.

(** The toolkit calls a position update can make: none, those that put
    the wrapper on a grid cell, or those that put it in the frame. *)
Definition placement_calls (calls : list GuiCall) : Prop :=
  calls = [] ∨
  (∃ x y, calls = [UpdateIdletasks; Place x y]) ∨
  (∃ f x y, calls = [PlaceForget; GridForget; PlaceIn f x y]).

(** Everything a playback reads or has produced so far. *)
Definition playback_view (s : St) :=
  (animations (fst s), _active_animation_name (fst s), _active_image (fst s),
   images_path (fst s), size (fst s),
   (frame_objs (snd s), list_objs (snd s), files (snd s), clock (snd s),
    timers (snd s), reported (snd s),
    swaps (gui (snd s)), scheduled (gui (snd s)))).

(** Classes of operations, by the attribute they may write. *)
Definition moves (op : Op) : bool :=
  match op with SetPosition _ | Move _ => true | _ => false end.
Definition registers (op : Op) : bool :=
  match op with RegisterAnimations _ => true | _ => false end.
Definition plays (op : Op) : bool :=
  match op with PlayAnimation _ => true | _ => false end.
Definition ticks (op : Op) : bool :=
  match op with Tick => true | _ => false end.

Definition sumZ (l : list Z) : Z := foldr Z.add 0 l.

(** ** The demo applications (exemple1.py, exemple2.py)

    Of each window the model keeps what the key handlers work on: the
    player (a character and the toolkit world), the position label, and
    the callbacks the window itself has scheduled with [after].  Those
    touch the label only; they are kept in a queue of their own. *)

Inductive AppCallback :=
  | UpdatePositionLabel
  | RestoreLabelColor (color : string).

Record App := {
  player : St;
  label_text : string;
  label_color : string;
  app_timers : list (Z * AppCallback);
}.

Definition with_player (v : St) (app : App) : App :=
  {| player := v; label_text := label_text app;
     label_color := label_color app; app_timers := app_timers app |}.
Definition with_label_text (v : string) (app : App) : App :=
  {| player := player app; label_text := v;
     label_color := label_color app; app_timers := app_timers app |}.
Definition with_label_color (v : string) (app : App) : App :=
  {| player := player app; label_text := label_text app;
     label_color := v; app_timers := app_timers app |}.
Definition with_app_timers (v : list (Z * AppCallback)) (app : App) : App :=
  {| player := player app; label_text := label_text app;
     label_color := label_color app; app_timers := v |}.

(** A method of the player, called from the window. *)
Definition on_player {A} (m : M St A) : M App A :=
  λ app, match m (player app) with (o, s') => (o, with_player s' app) end.

(** A method of a character that is not yet stored anywhere. *)
Definition with_object {A} (c : Character) (m : M St A) : M World (A * Character) :=
  λ w, match m (c, w) with
       | (Returned a, (c', w')) => (Returned (a, c'), w')
       | (Raised e, (_, w')) => (Raised e, w')
       end.

(** [self.after(ms, callback)] on the window. *)
Definition app_after (ms : Z) (cb : AppCallback) : M App unit :=
  modify (λ app,
    with_app_timers
      (app_timers app ++ [(clock (snd (player app)) + Z.max 0 ms, cb)]) app).

(** The text [f"Position: {position}"] for a pair of integers. *)
Definition format_position (p : Z * Z) : string :=
  "Position: (" +:+ pretty (fst p) +:+ ", " +:+ pretty (snd p) +:+ ")".

(** [_update_position_label] and [_flash_invalid_move] have the same
    text in both files. *)
Definition _update_position_label : M App unit :=
  p <- on_player current_position ;;
  modify (with_label_text (format_position p)).

Definition _flash_invalid_move : M App unit :=
  let default_color := "#7FBADC" in
  modify (with_label_color "#FF6B6B") ;;;
  app_after 200 (RestoreLabelColor default_color).

(** What the event loop can deliver to a window: a key press, a timer of
    the character, a timer of the window. *)
Inductive Event :=
  | KeyPress (keysym : string)
  | TimerTick
  | AppTimer.

Definition fire_app_timer (app : App) : App :=
  match app_timers app with
  | [] => app
  | (_, cb) :: q =>
      let app' := with_app_timers q app in
      match cb with
      | UpdatePositionLabel => snd (_update_position_label app')
      | RestoreLabelColor color => with_label_color color app'
      end
  end.

(** An event, handled; an exception escaping a callback is reported by
    Tk and the state it left stays. *)
Definition deliver (on_key : string → M App unit) (ev : Event) (app : App) : App :=
  match ev with
  | KeyPress keysym => snd (on_key keysym app)
  | TimerTick => with_player (default (player app) (tick (player app))) app
  | AppTimer => fire_app_timer app
  end.

Definition deliver_all (on_key : string → M App unit) (evs : list Event)
    (app : App) : App :=
  foldl (λ app ev, deliver on_key ev app) app evs.

Module Exemple2.

Definition DEFAULT_SIZE : Z := 54.
Definition IMAGE_ASSETS_PATH : string := "./assets/images/".
Definition STEP_PIXELS : Z := 15.
Definition INITIAL_POSITION : Z * Z := (20, 20).

Definition MOVEMENT_KEYS : gmap string (Z * Z) :=
  list_to_map
    [ ("Up", (0, - STEP_PIXELS)); ("Down", (0, STEP_PIXELS));
      ("Left", (- STEP_PIXELS, 0)); ("Right", (STEP_PIXELS, 0));
      ("w", (0, - STEP_PIXELS)); ("s", (0, STEP_PIXELS));
      ("a", (- STEP_PIXELS, 0)); ("d", (STEP_PIXELS, 0)) ].

(** [FreeMovementCharacter(master, play_area)] *)
Definition FreeMovementCharacter_init (master play_area : Widget)
  : M World Character :=
  f <- AnimationFrame_init "blue_square_blink_0001.png" None ;;
  l <- new_list [f] ;;
  a <- Animation_init "idle" l ;;
  Character_init master (Some [a]) default_position IMAGE_ASSETS_PATH
    DEFAULT_SIZE "#1E2A3A" (Some play_area) None.

(** [_spawn_character()]: the player it stores in the window. *)
Definition _spawn_character (window play_area : Widget) : M World Character :=
  player <- FreeMovementCharacter_init window play_area ;;
  r <- with_object player (set_position INITIAL_POSITION) ;;
  r' <- with_object (snd r) (play_animation "idle") ;;
  ret (snd r').

(** The window after [_create_position_label] and [_spawn_character]. *)
Definition FreeMovementApp_init (window play_area : Widget) (w : World)
  : outcome App :=
  match _spawn_character window play_area w with
  | (Returned player, w') =>
      Returned {| player := (player, w');
                  label_text := format_position INITIAL_POSITION;
                  label_color := "#7FBADC"; app_timers := [] |}
  | (Raised e, _) => Raised e
  end.

(** [_handle_keypress(event)], on [event.keysym] *)
Definition _handle_keypress (keysym : string) : M App unit :=
  match MOVEMENT_KEYS !! keysym with
  | None => ret tt
  | Some movement_offset =>
      moved <- on_player (move movement_offset) ;;
      if negb moved then _flash_invalid_move
      else _update_position_label
  end.

End Exemple2.

Module Exemple1.

Definition DEFAULT_SIZE : Z := 54.
Definition IMAGE_ASSETS_PATH : string := "./assets/images/".
Definition INITIAL_POSITION : Z * Z := (1, 0).

Definition MOVEMENT_KEYS : gmap string (Z * Z) :=
  list_to_map
    [ ("Up", (-1, 0)); ("Down", (1, 0)); ("Left", (0, -1)); ("Right", (0, 1));
      ("w", (-1, 0)); ("s", (1, 0)); ("a", (0, -1)); ("d", (0, 1)) ].

(** [GridCharacter(master, grid_matrix)] *)
Definition GridCharacter_init (master : Widget)
    (grid_matrix : list (list Widget)) : M World Character :=
  f <- AnimationFrame_init "blue_square_blink_0001.png" None ;;
  l <- new_list [f] ;;
  a <- Animation_init "idle" l ;;
  Character_init master (Some [a]) default_position IMAGE_ASSETS_PATH
    DEFAULT_SIZE "#1E2A3A" None (Some grid_matrix).

(** [_spawn_character()], on the grid that [get_cells_grid()] returns. *)
Definition _spawn_character (window : Widget)
    (grid_matrix : list (list Widget)) : M World Character :=
  player <- GridCharacter_init window grid_matrix ;;
  r <- with_object player (set_position INITIAL_POSITION) ;;
  r' <- with_object (snd r) (play_animation "idle") ;;
  ret (snd r').

(** The window after [_create_position_label] and [_spawn_character]. *)
Definition GridGameApp_init (window : Widget)
    (grid_matrix : list (list Widget)) (w : World) : outcome App :=
  match _spawn_character window grid_matrix w with
  | (Returned player, w') =>
      Returned {| player := (player, w');
                  label_text := format_position INITIAL_POSITION;
                  label_color := "#7FBADC"; app_timers := [] |}
  | (Raised e, _) => Raised e
  end.

(** [_on_keypress(event)], on [event.keysym] *)
Definition _on_keypress (keysym : string) : M App unit :=
  match MOVEMENT_KEYS !! keysym with
  | None => ret tt
  | Some movement_offset =>
      app <- get ;;
      let previous_position := position (fst (player app)) in
      on_player (move movement_offset) ;;;
      app_after 200 UpdatePositionLabel ;;;
      app' <- get ;;
      if bool_decide (position (fst (player app')) = previous_position)
      then _flash_invalid_move
      else ret tt
  end.

End Exemple1.

(** The offsets of the key presses among some events, by a key table. *)
Definition key_offsets (keys : gmap string (Z * Z)) (evs : list Event)
  : list (Z * Z) :=
  omap (λ ev, match ev with
              | KeyPress keysym => keys !! keysym
              | _ => None
              end) evs.

(** The free-movement window as its key handler expects it: the player
    in frame mode, the label showing the position in its normal colour,
    no callback of the window pending. *)
Definition free_window_ok (play_area : Widget) (app : App) : Prop :=
  grid_cells (fst (player app)) = None ∧
  frame (fst (player app)) = Some play_area ∧
  label_text app = format_position (position (fst (player app))) ∧
  label_color app = "#7FBADC" ∧
  app_timers app = [].

(** A grid window on the 2 x 3 grid, the player at (1, 1). *)
Definition demo_grid_app : App :=
  {| player := (with_position (1, 1) (blank None (Some grid23)), empty_world);
     label_text := format_position (1, 1);
     label_color := "#7FBADC"; app_timers := [] |}.

(** * Proofs *)

Ltac unfold_m :=
  unfold bind, ret, raise, get, modify, self, set_self, tk, in_world in *.

Lemma getitem_in_range {S A} (l : list A) (i : Z) (s : S) :
  0 ≤ i < len l →
  ∃ x, l !! Z.to_nat i = Some x ∧ getitem l i s = (Returned x, s).
Proof.
  unfold len. intros Hi. unfold getitem.
  destruct (Z.ltb_spec i 0) as [?|_]; [lia|].
  destruct (Z.ltb_spec i 0) as [?|_]; [lia|].
  destruct (Z.leb_spec (Z.of_nat (length l)) i) as [?|_]; [lia|].
  simpl. destruct (l !! Z.to_nat i) as [x|] eqn:E.
  - exists x. by unfold ret.
  - apply lookup_ge_None in E. lia.
Qed.

Lemma getitem_zero_cons {S A} (x : A) (l : list A) (s : S) :
  getitem (x :: l) 0 s = (Returned x, s).
Proof.
  destruct (getitem_in_range (x :: l) 0 s) as (y & Hy & ->).
  - unfold len. simpl. lia.
  - simpl in Hy. by inversion Hy.
Qed.

Lemma in_grid_bounds_dec (grid : list (list Widget)) (row col : Z) :
  (0 <=? row) && (row <? len grid) && ((0 <=? col) && (col <? grid_cols grid)) = true
  ↔ in_grid_bounds grid (row, col).
Proof.
  unfold in_grid_bounds. simpl.
  rewrite !andb_true_iff, !Z.leb_le, !Z.ltb_lt. tauto.
Qed.

(** On a rectangular grid the bounds of [set_position] are the cells. *)
Lemma in_grid_bounds_rectangular (grid : list (list Widget)) (pos : Z * Z) :
  rectangular grid → in_grid_bounds grid pos ↔ has_cell grid pos.
Proof.
  intros Hrect. destruct pos as [row col].
  unfold in_grid_bounds, has_cell. simpl. split.
  - intros [Hr Hc]. split; [lia|]. split; [lia|].
    destruct (grid !! Z.to_nat row) as [r|] eqn:Er.
    + assert (len r = grid_cols grid) as Hlen
        by (apply Hrect; eapply list_elem_of_lookup_2; eauto).
      destruct (r !! Z.to_nat col) as [t|] eqn:Et; [eauto|].
      apply lookup_ge_None in Et. unfold len in Hlen. lia.
    + apply lookup_ge_None in Er. unfold len in Hr. lia.
  - intros (Hr & Hc & r & t & Er & Et).
    assert (len r = grid_cols grid) as Hlen
      by (apply Hrect; eapply list_elem_of_lookup_2; eauto).
    apply lookup_lt_Some in Er, Et. unfold len in *. lia.
Qed.

(** In grid mode [_update_position] returns: the indexing it does is
    guarded by its own range test.  It leaves the object, the store and
    the timers alone. *)
Lemma _update_position_grid (c : Character) (w : World) grid :
  grid_cells c = Some grid →
  ∃ w', _update_position (c, w) = (Returned tt, (c, w')) ∧
        frame_objs w' = frame_objs w ∧ list_objs w' = list_objs w ∧
        files w' = files w ∧ timers w' = timers w ∧ clock w' = clock w.
Proof.
  intros Hg. unfold _update_position. unfold_m. simpl. rewrite Hg.
  destruct (position c) as [row col].
  destruct (Z.ltb_spec row 0); [by eauto 10|].
  destruct (Z.ltb_spec col 0); [by eauto 10|].
  destruct (Z.leb_spec (len grid) row); [by eauto 10|].
  destruct (getitem_in_range (S := St) grid row (c, w)) as (r & Hr & ->); [lia|].
  destruct (Z.leb_spec (len r) col); [by eauto 10|].
  destruct (getitem_in_range (S := St) grid row (c, w)) as (r' & Hr' & ->); [lia|].
  destruct (getitem_in_range (S := St) r' col (c, w)) as (t & Ht & ->).
  { rewrite Hr in Hr'. inversion Hr'. subst. lia. }
  simpl. eexists. split; [reflexivity|]. by simpl.
Qed.

Lemma first_row_columns (grid : list (list Widget)) (s : St) :
  (if len grid =? 0 then ret 0
   else r0 <- getitem grid 0 ;; ret (len r0)) s = (Returned (grid_cols grid), s).
Proof.
  destruct grid as [|r0 g]; [done|].
  destruct (Z.eqb_spec (len (r0 :: g)) 0) as [E|_].
  - unfold len in E. simpl in E. lia.
  - unfold bind. by rewrite getitem_zero_cons.
Qed.

(** [set_position] in grid mode, by cases on the bounds test. *)
Lemma set_position_grid (c : Character) (w : World) grid (pos : Z * Z) :
  grid_cells c = Some grid →
  (in_grid_bounds grid pos →
     ∃ w', set_position pos (c, w) = (Returned true, (with_position pos c, w')) ∧
           frame_objs w' = frame_objs w ∧ list_objs w' = list_objs w ∧
           files w' = files w ∧ timers w' = timers w ∧ clock w' = clock w) ∧
  (¬ in_grid_bounds grid pos →
     set_position pos (c, w) = (Returned false, (c, w))).
Proof.
  intros Hg. destruct pos as [row col].
  assert (
    set_position (row, col) (c, w) =
    if negb ((0 <=? row) && (row <? len grid) &&
             ((0 <=? col) && (col <? grid_cols grid)))
    then (Returned false, (c, w))
    else match _update_position (with_position (row, col) c, w) with
         | (Returned _, s') => (Returned true, s')
         | (Raised e, s') => (Raised e, s')
         end) as Hrun.
  { unfold set_position. unfold bind at 1. unfold self at 1.
    simpl. rewrite Hg. unfold bind at 1. rewrite first_row_columns.
    destruct (negb _); [done|]. by unfold_m. }
  rewrite Hrun. clear Hrun.
  destruct ((0 <=? row) && (row <? len grid) &&
            ((0 <=? col) && (col <? grid_cols grid))) eqn:Hb; simpl.
  - apply in_grid_bounds_dec in Hb. split; [|tauto]. intros _.
    destruct (_update_position_grid (with_position (row, col) c) w grid Hg)
      as (w' & -> & Hw'). eauto.
  - split; [|done]. intros Hin. apply in_grid_bounds_dec in Hin. congruence.
Qed.

(** [set_position] in frame mode. *)
Lemma set_position_frame (c : Character) (w : World) f (pos : Z * Z) :
  grid_cells c = None → frame c = Some f →
  set_position pos (c, w) =
    (Returned true,
     (with_position pos c,
      call (PlaceIn f (fst pos) (snd pos)) (call GridForget (call PlaceForget w)))).
Proof.
  intros Hg Hf. destruct pos as [x y].
  unfold set_position, _update_position. unfold_m. simpl.
  rewrite Hg. simpl. rewrite Hg, Hf. reflexivity.
Qed.

(** [set_position] with neither layout: the position is stored, then
    [_update_position] raises. *)
Lemma set_position_no_layout (c : Character) (w : World) (pos : Z * Z) :
  grid_cells c = None → frame c = None →
  set_position pos (c, w) =
    (Raised (RuntimeError "No frame or grid_cells was defined."),
     (with_position pos c, w)).
Proof.
  intros Hg Hf.
  unfold set_position, _update_position. unfold_m. simpl.
  rewrite Hg. simpl. rewrite Hg, Hf. reflexivity.
Qed.

Lemma in_grid_bounds_decide grid pos :
  in_grid_bounds grid pos ∨ ¬ in_grid_bounds grid pos.
Proof. unfold in_grid_bounds. lia. Qed.

(** What a returning [set_position] has done, whatever the mode. *)
Lemma set_position_returned (c : Character) (w : World) (pos : Z * Z) b s' :
  set_position pos (c, w) = (Returned b, s') →
  if b then fst s' = with_position pos c else s' = (c, w).
Proof.
  destruct (grid_cells c) as [grid|] eqn:Hg.
  - destruct (set_position_grid c w grid pos Hg) as [Hin Hout].
    destruct (in_grid_bounds_decide grid pos) as [H|H].
    + destruct (Hin H) as (w' & -> & _). intros [= <- <-]. done.
    + rewrite (Hout H). intros [= <- <-]. done.
  - destruct (frame c) as [f|] eqn:Hf.
    + rewrite (set_position_frame c w f pos Hg Hf). intros [= <- <-]. done.
    + by rewrite (set_position_no_layout c w pos Hg Hf).
Qed.

Lemma move_unfold (c : Character) (w : World) (dx dy : Z) :
  move (dx, dy) (c, w) =
  set_position (fst (position c) + dx, snd (position c) + dy) (c, w).
Proof.
  unfold move. unfold bind at 1. unfold self at 1. simpl.
  by destruct (position c).
Qed.

(** ** Position updates *)

(** C1. In grid mode, [set_position (row, col)] outside the bounds of the
    grid returns [False] and changes nothing; inside the bounds it returns
    [True] and the stored position becomes [(row, col)]. *)
Theorem set_position_grid_bounds (c : Character) (w : World)
    (grid : list (list Widget)) (row col : Z) :
  grid_cells c = Some grid →
  (¬ in_grid_bounds grid (row, col) →
     set_position (row, col) (c, w) = (Returned false, (c, w))) ∧
  (in_grid_bounds grid (row, col) →
     ∃ c' w', set_position (row, col) (c, w) = (Returned true, (c', w')) ∧
              c' = with_position (row, col) c ∧ position c' = (row, col)).
Proof.
  intros Hg. destruct (set_position_grid c w grid (row, col) Hg) as [Hin Hout].
  split; [exact Hout|]. intros H.
  destruct (Hin H) as (w' & Hrun & _). by exists (with_position (row, col) c), w'.
Qed.

Lemma set_position_grid_bounds_witness :
  set_position (5, 0) (blank None (Some grid23), empty_world)
    = (Returned false, (blank None (Some grid23), empty_world)) ∧
  ∃ c' w', set_position (1, 2) (blank None (Some grid23), empty_world)
             = (Returned true, (c', w')) ∧
           c' = with_position (1, 2) (blank None (Some grid23)) ∧
           position c' = (1, 2).
Proof.
  destruct (set_position_grid_bounds (blank None (Some grid23)) empty_world
              grid23 5 0 eq_refl) as [Hout _].
  destruct (set_position_grid_bounds (blank None (Some grid23)) empty_world
              grid23 1 2 eq_refl) as [_ Hin].
  split.
  - apply Hout. unfold in_grid_bounds. vm_compute. intros [[_ H] _]. discriminate H.
  - apply Hin. unfold in_grid_bounds. vm_compute. repeat split; discriminate.
Defined.

(** C8. In frame mode [set_position] applies no bounds test: it returns
    [True] for every pair of integers and stores it, and the wrapper is
    placed in the frame at those coordinates. *)
Theorem set_position_frame_unbounded (c : Character) (w : World)
    (f : Widget) (x y : Z) :
  frame c = Some f → grid_cells c = None →
  ∃ c' w', set_position (x, y) (c, w) = (Returned true, (c', w')) ∧
           position c' = (x, y) ∧
           c' = with_position (x, y) c ∧
           w' = call (PlaceIn f x y) (call GridForget (call PlaceForget w)).
Proof.
  intros Hf Hg. eexists _, _. split.
  - apply (set_position_frame c w f (x, y) Hg Hf).
  - done.
Qed.

Lemma set_position_frame_unbounded_witness :
  ∃ c' w', set_position (-7, 100000) (blank (Some window) None, empty_world)
             = (Returned true, (c', w')) ∧
           position c' = (-7, 100000) ∧
           c' = with_position (-7, 100000) (blank (Some window) None) ∧
           w' = call (PlaceIn window (-7) 100000)
                  (call GridForget (call PlaceForget empty_world)).
Proof.
  exact (set_position_frame_unbounded (blank (Some window) None) empty_world
           window (-7) 100000 eq_refl eq_refl).
Defined.

(** C9. In grid mode the column count of the bounds test is the length of
    the first row, for every row: [set_position (row, col)] is accepted
    exactly when [0 <= row < len(grid_cells)] and
    [0 <= col < len(grid_cells[0])], and is otherwise rejected with nothing
    changed.  With no rows every [set_position] and every [move] returns
    [False] and changes nothing. *)
Theorem set_position_first_row_columns (c : Character) (w : World)
    (grid : list (list Widget)) (row col : Z) :
  grid_cells c = Some grid →
  (fst (set_position (row, col) (c, w)) = Returned true
     ↔ 0 ≤ row < len grid ∧ 0 ≤ col < len (default [] (grid !! 0%nat))) ∧
  (fst (set_position (row, col) (c, w)) ≠ Returned true →
     set_position (row, col) (c, w) = (Returned false, (c, w))) ∧
  (grid = [] →
     set_position (row, col) (c, w) = (Returned false, (c, w)) ∧
     ∀ offset, move offset (c, w) = (Returned false, (c, w))).
Proof.
  intros Hg.
  assert (len (default [] (grid !! 0%nat)) = grid_cols grid) as ->
    by (by destruct grid).
  change (0 ≤ row < len grid ∧ 0 ≤ col < grid_cols grid)
    with (in_grid_bounds grid (row, col)).
  destruct (set_position_grid c w grid (row, col) Hg) as [Hin Hout].
  split; [|split].
  - split.
    + intros Hret. destruct (in_grid_bounds_decide grid (row, col)) as [H|H]; [done|].
      rewrite (Hout H) in Hret. discriminate.
    + intros H. destruct (Hin H) as (w' & -> & _). done.
  - intros Hne. destruct (in_grid_bounds_decide grid (row, col)) as [H|H].
    + destruct (Hin H) as (w' & Hrun & _). rewrite Hrun in Hne. done.
    + exact (Hout H).
  - intros ->. split.
    + apply Hout. unfold in_grid_bounds, len. simpl. lia.
    + intros [dx dy]. rewrite move_unfold.
      apply (set_position_grid c w [] _ Hg). unfold in_grid_bounds, len. simpl. lia.
Qed.

Lemma set_position_first_row_columns_witness :
  fst (set_position (1, 2) (blank None (Some ragged), empty_world)) = Returned true ∧
  set_position (0, 3) (blank None (Some ragged), empty_world)
    = (Returned false, (blank None (Some ragged), empty_world)).
Proof.
  destruct (set_position_first_row_columns (blank None (Some ragged)) empty_world
              ragged 1 2 eq_refl) as [Hiff _].
  destruct (set_position_first_row_columns (blank None (Some ragged)) empty_world
              ragged 0 3 eq_refl) as (_ & Hrej & _).
  split.
  - apply Hiff. vm_compute. repeat split; discriminate.
  - apply Hrej. vm_compute. discriminate.
Defined.

(** On the ragged grid, (1, 2) names no cell; [set_position] accepts it
    and stores it, and [_update_position] leaves the wrapper where it is. *)
Example set_position_ragged_accepts_missing_cell :
  set_position (1, 2) (blank None (Some ragged), empty_world)
    = (Returned true,
       (with_position (1, 2) (blank None (Some ragged)), empty_world)).
Proof. reflexivity. Qed.


Example move_grid_accepted :
  fst (move (0, 1) (with_position (1, 1) (blank None (Some grid23)), empty_world))
    = Returned true.
Proof. reflexivity. Qed.

Example move_grid_rejected :
  move (1, 0) (with_position (1, 1) (blank None (Some grid23)), empty_world)
    = (Returned false, (with_position (1, 1) (blank None (Some grid23)), empty_world)).
Proof. reflexivity. Qed.

(** ** Animations and the registry *)

Lemma with_animations_same (c : Character) : with_animations (animations c) c = c.
Proof. by destruct c. Qed.

Lemma _register_animations_cons (a : Animation) rest (c : Character) (w : World) :
  _register_animations (a :: rest) (c, w) =
  match animations c !! name a with
  | Some _ => (Raised (ValueError ("Duplicate animation '" +:+ name a +:+ "'.")), (c, w))
  | None => _register_animations rest
              (with_animations (<[name a := frames a]> (animations c)) c, w)
  end.
Proof.
  simpl. unfold bind at 1. unfold self at 1. simpl.
  by destruct (animations c !! name a).
Qed.

(** What a registration call does, whether it returns or raises: the
    world is not touched, the object changes in its registry only, the
    entries it had are kept, every new entry comes from an argument, and
    on return every argument is registered under its name. *)
Lemma _register_animations_spec (anims : list Animation) :
  ∀ (c : Character) (w : World) o c' w',
    _register_animations anims (c, w) = (o, (c', w')) →
    w' = w ∧
    c' = with_animations (animations c') c ∧
    (∀ n l, animations c !! n = Some l → animations c' !! n = Some l) ∧
    (∀ n l, animations c' !! n = Some l →
            animations c !! n = Some l ∨
            ∃ a, a ∈ anims ∧ name a = n ∧ frames a = l) ∧
    (o = Returned tt →
       ∀ a, a ∈ anims → animations c' !! name a = Some (frames a)).
Proof.
  induction anims as [|a rest IH]; intros c w o c' w' Hrun.
  - simpl in Hrun. unfold ret in Hrun. inversion Hrun; subst.
    rewrite with_animations_same. repeat split; auto.
    intros _ a Ha. by apply elem_of_nil in Ha.
  - rewrite _register_animations_cons in Hrun.
    destruct (animations c !! name a) as [l0|] eqn:Ea.
    + inversion Hrun; subst. rewrite with_animations_same.
      repeat split; auto. discriminate.
    + apply IH in Hrun as (-> & Hc' & Hkeep & Hnew & Hall).
      simpl in *. split; [done|]. split; [done|]. split; [|split].
      * intros n l Hn. apply Hkeep. rewrite lookup_insert_ne; [done|].
        intros <-. congruence.
      * intros n l Hn. destruct (Hnew n l Hn) as [Hold|(b & Hb & Hbn & Hbl)].
        -- destruct (decide (name a = n)) as [<-|Hne].
           ++ rewrite lookup_insert_eq in Hold. inversion Hold; subst.
              right. exists a. split; [apply list_elem_of_here|done].
           ++ rewrite lookup_insert_ne in Hold by done. by left.
        -- right. exists b. split; [by apply list_elem_of_further|done].
      * intros Ho b Hb. apply elem_of_cons in Hb as [->|Hb].
        -- apply Hkeep. apply lookup_insert_eq.
        -- by apply Hall.
Qed.

(** A registration call returns when the names are new and distinct. *)
Lemma _register_animations_returns (anims : list Animation) :
  ∀ (c : Character) (w : World),
    NoDup (name <$> anims) →
    (∀ a, a ∈ anims → animations c !! name a = None) →
    ∃ c', _register_animations anims (c, w) = (Returned tt, (c', w)).
Proof.
  induction anims as [|a rest IH]; intros c w Hnd Hfresh.
  - exists c. done.
  - rewrite _register_animations_cons.
    rewrite (Hfresh a) by apply list_elem_of_here.
    rewrite fmap_cons in Hnd. apply NoDup_cons in Hnd as [Hna Hnd].
    apply IH; [done|]. intros b Hb. simpl.
    rewrite lookup_insert_ne.
    + apply Hfresh. by apply list_elem_of_further.
    + intros E. apply Hna. rewrite E. by apply list_elem_of_fmap_2.
Qed.

Lemma register_calls_keep (calls : list (list Animation)) :
  ∀ (s : St) n l,
    animations (fst s) !! n = Some l →
    animations (fst (register_calls calls s)) !! n = Some l.
Proof.
  induction calls as [|anims calls IH]; intros [c w] n l Hn; [done|].
  simpl. apply IH.
  destruct (_register_animations anims (c, w)) as [o [c' w']] eqn:Hrun.
  apply _register_animations_spec in Hrun as (_ & _ & Hkeep & _). by apply Hkeep.
Qed.

Lemma register_calls_cons anims calls (s : St) :
  register_calls (anims :: calls) s
  = register_calls calls (snd (_register_animations anims s)).
Proof. done. Qed.

Lemma register_one_by_one (anims : list Animation) :
  ∀ (s : St) n,
    animations (fst (register_calls ((λ a, [a]) <$> anims) s)) !! n =
    match animations (fst s) !! n with
    | Some l => Some l
    | None => frames <$> first_named n anims
    end.
Proof.
  induction anims as [|a rest IH]; intros [c w] n.
  - simpl. by destruct (animations c !! n).
  - rewrite fmap_cons, register_calls_cons, IH.
    rewrite _register_animations_cons. simpl _register_animations.
    unfold first_named. simpl find.
    destruct (animations c !! name a) as [l0|] eqn:Ea; simpl.
    + destruct (animations c !! n) as [l|] eqn:En; [done|].
      case_bool_decide as Hn; [congruence|done].
    + case_bool_decide as Hn.
      * subst n. rewrite lookup_insert_eq, Ea. done.
      * rewrite lookup_insert_ne by done. done.
Qed.

(** C2. [Animation(name, frames)] with an empty list raises [ValueError];
    with a list that is not empty it returns an animation holding that
    name and that list; whatever it returns holds at least one frame. *)
Theorem Animation_init_nonempty (n : string) (fl : loc) (w : World) :
  (list_objs w !! fl = Some [] →
     Animation_init n fl w
     = (Raised (ValueError ("The animation '" +:+ n +:+ "' cannot be empty.")), w)) ∧
  (∀ f fs, list_objs w !! fl = Some (f :: fs) →
     Animation_init n fl w = (Returned {| name := n; frames := fl |}, w)) ∧
  (∀ a w', Animation_init n fl w = (Returned a, w') →
     name a = n ∧ frames a = fl ∧ w' = w ∧
     ∃ f fs, list_objs w' !! frames a = Some (f :: fs)).
Proof.
  unfold Animation_init, deref_list. unfold_m.
  split; [|split].
  - intros ->. done.
  - intros f fs ->. done.
  - intros a w'. destruct (list_objs w !! fl) as [[|f fs]|] eqn:E; simpl; try done.
    intros [= <- <-]. simpl. eauto 10.
Qed.

Lemma Animation_init_nonempty_witness :
  Animation_init "empty" 1%nat demo_world
    = (Raised (ValueError "The animation 'empty' cannot be empty."), demo_world) ∧
  Animation_init "blink" 0%nat demo_world = (Returned blink, demo_world).
Proof.
  destruct (Animation_init_nonempty "empty" 1%nat demo_world) as [Hempty _].
  destruct (Animation_init_nonempty "blink" 0%nat demo_world) as (_ & Hfull & _).
  split.
  - apply Hempty. reflexivity.
  - apply (Hfull 0%nat [1%nat]). reflexivity.
Defined.

Lemma Character_init_unfold master anims pos path sz bg fr gc (w : World) :
  Character_init master anims pos path sz bg fr gc w =
  match anims with
  | Some (a :: rest) =>
      match _register_animations (a :: rest)
              (fresh_character master pos path sz bg fr gc,
               init_calls master bg sz w) with
      | (Returned _, (c', w')) => (Returned c', w')
      | (Raised e, (_, w')) => (Raised e, w')
      end
  | _ => (Returned (fresh_character master pos path sz bg fr gc),
          init_calls master bg sz w)
  end.
Proof. done. Qed.

(** Construction returns when the names are distinct, whatever the
    layout arguments are, and the object has the arguments as given. *)
Lemma Character_init_returns master anims pos path sz bg fr gc (w : World) :
  NoDup (name <$> given anims) →
  ∃ c, Character_init master anims pos path sz bg fr gc w
         = (Returned c, init_calls master bg sz w) ∧
       c = with_animations (animations c)
             (fresh_character master pos path sz bg fr gc) ∧
       ∀ a, a ∈ given anims → animations c !! name a = Some (frames a).
Proof.
  intros Hnd. rewrite Character_init_unfold.
  destruct anims as [[|a rest]|].
  - eexists. split; [done|]. split; [done|]. intros a Ha. by apply elem_of_nil in Ha.
  - destruct (_register_animations_returns (a :: rest)
                (fresh_character master pos path sz bg fr gc)
                (init_calls master bg sz w) Hnd) as [c' Hrun].
    { intros b _. apply lookup_empty. }
    rewrite Hrun.
    apply _register_animations_spec in Hrun as (_ & Hc' & _ & _ & Hall).
    exists c'. split; [done|]. split; [done|]. by apply Hall.
  - eexists. split; [done|]. split; [done|]. intros a Ha. by apply elem_of_nil in Ha.
Qed.

Lemma get_animation_frames_registered (c : Character) (w : World) n l :
  animations c !! n = Some l →
  get_animation_frames n (c, w) = (Returned l, (c, w)).
Proof. intros H. unfold get_animation_frames. unfold_m. simpl. by rewrite H. Qed.

Lemma _register_animations_app (pre post : list Animation) :
  ∀ s : St,
    _register_animations (pre ++ post) s =
    match _register_animations pre s with
    | (Returned _, s') => _register_animations post s'
    | (Raised e, s') => (Raised e, s')
    end.
Proof.
  induction pre as [|a pre IH]; intros [c w]; [done|].
  rewrite <- app_comm_cons, !_register_animations_cons.
  destruct (animations c !! name a); [done|]. apply IH.
Qed.

(** C3, as the claim has it: construction with neither layout argument,
    and with both, would have to raise.  It returns the object. *)
Lemma Character_init_accepts_any_layout :
  Character_init window None default_position default_images_path
      default_size default_bg_color None None empty_world
    = (Returned (fresh_character window default_position default_images_path
                   default_size default_bg_color None None),
       init_calls window default_bg_color default_size empty_world) ∧
  Character_init window None default_position default_images_path
      default_size default_bg_color (Some window) (Some grid23) empty_world
    = (Returned (fresh_character window default_position default_images_path
                   default_size default_bg_color (Some window) (Some grid23)),
       init_calls window default_bg_color default_size empty_world).
Proof. split; reflexivity. Qed.

(** C3, amended. The constructor does not look at [frame] and
    [grid_cells]: with animation names that are distinct it returns for
    each of the four combinations, and the object holds the two arguments
    as given.  The layout is resolved when a position is applied: with
    neither, [set_position] stores the position and raises [RuntimeError];
    with at least one it returns; and [grid_cells], when given, decides
    the bounds whether or not [frame] is given too. *)
Theorem Character_init_layout_unchecked (master : Widget)
    (anims : option (list Animation)) (pos : Z * Z) (path : string) (sz : Z)
    (bg : string) (fr : option Widget) (gc : option (list (list Widget)))
    (w : World) :
  NoDup (name <$> given anims) →
  ∃ c w',
    Character_init master anims pos path sz bg fr gc w = (Returned c, w') ∧
    frame c = fr ∧ grid_cells c = gc ∧
    (fr = None → gc = None →
       ∀ p w2, set_position p (c, w2)
               = (Raised (RuntimeError "No frame or grid_cells was defined."),
                  (with_position p c, w2))) ∧
    (is_Some fr ∨ is_Some gc →
       ∀ p w2, ∃ b s', set_position p (c, w2) = (Returned b, s')) ∧
    (∀ grid, gc = Some grid →
       ∀ p w2, ¬ in_grid_bounds grid p →
               set_position p (c, w2) = (Returned false, (c, w2))).
Proof.
  intros Hnd.
  destruct (Character_init_returns master anims pos path sz bg fr gc w Hnd)
    as (c & Hrun & Hc & _).
  assert (frame c = fr) as Hfr by (by rewrite Hc).
  assert (grid_cells c = gc) as Hgc by (by rewrite Hc).
  exists c, (init_calls master bg sz w). split; [done|].
  split; [done|]. split; [done|]. split; [|split].
  - intros -> -> p w2. by apply set_position_no_layout.
  - intros Hsome p w2. destruct gc as [grid|].
    + destruct (set_position_grid c w2 grid p Hgc) as [Hin Hout].
      destruct (in_grid_bounds_decide grid p) as [H|H].
      * destruct (Hin H) as (w3 & -> & _). eauto.
      * rewrite (Hout H). eauto.
    + destruct Hsome as [[f ->]|[? [=]]].
      rewrite (set_position_frame c w2 f p Hgc Hfr). eauto.
  - intros grid -> p w2 Hout. by apply (set_position_grid c w2 grid p Hgc).
Qed.

Lemma Character_init_layout_unchecked_witness :
  ∃ c w',
    Character_init window (Some [blink; look]) (0, 0) default_images_path 54
      default_bg_color None None demo_world = (Returned c, w') ∧
    frame c = None ∧ grid_cells c = None ∧
    ∀ p w2, set_position p (c, w2)
            = (Raised (RuntimeError "No frame or grid_cells was defined."),
               (with_position p c, w2)).
Proof.
  destruct (Character_init_layout_unchecked window (Some [blink; look]) (0, 0)
              default_images_path 54 default_bg_color None None demo_world)
    as (c & w' & Hrun & Hfr & Hgc & Hraise & _).
  - simpl. apply NoDup_cons. split.
    + intros H. apply list_elem_of_singleton in H. discriminate H.
    + apply NoDup_singleton.
  - exists c, w'. repeat split; try assumption. by apply Hraise.
Defined.

Lemma first_named_cons (n : string) (a : Animation) (l : list Animation) :
  first_named n (a :: l)
  = if bool_decide (name a = n) then Some a else first_named n l.
Proof. done. Qed.

Lemma first_named_app (n : string) (l1 l2 : list Animation) :
  first_named n (l1 ++ l2)
  = match first_named n l1 with
    | Some a => Some a
    | None => first_named n l2
    end.
Proof.
  induction l1 as [|a l1 IH]; [done|].
  rewrite <- app_comm_cons, !first_named_cons. by destruct (bool_decide _).
Qed.

(** One call, whatever its outcome: the registry afterwards is the one
    before with the admitted arguments added, each under its own frames. *)
Lemma register_call_lookup (anims : list Animation) :
  ∀ (c : Character) (w : World) n,
    animations (fst (snd (_register_animations anims (c, w)))) !! n
    = match animations c !! n with
      | Some l => Some l
      | None => frames <$> first_named n (admitted (dom (animations c)) anims)
      end.
Proof.
  induction anims as [|a rest IH]; intros c w n.
  - simpl. by destruct (animations c !! n).
  - rewrite _register_animations_cons. cbn [admitted].
    destruct (animations c !! name a) as [l0|] eqn:Ea.
    + rewrite decide_True by (apply elem_of_dom; eauto).
      simpl. by destruct (animations c !! n).
    + rewrite decide_False by (by apply not_elem_of_dom).
      rewrite IH. cbn [animations with_animations].
      rewrite dom_insert_L, first_named_cons.
      case_bool_decide as Hn.
      * subst n. by rewrite lookup_insert_eq, Ea.
      * by rewrite lookup_insert_ne.
Qed.

Lemma register_call_dom (anims : list Animation) :
  ∀ (c : Character) (w : World),
    dom (animations (fst (snd (_register_animations anims (c, w)))))
    = list_to_set (name <$> admitted (dom (animations c)) anims)
      ∪ dom (animations c).
Proof.
  induction anims as [|a rest IH]; intros c w.
  - simpl. by rewrite union_empty_l_L.
  - rewrite _register_animations_cons. cbn [admitted].
    destruct (animations c !! name a) as [l0|] eqn:Ea.
    + rewrite decide_True by (apply elem_of_dom; eauto).
      simpl. by rewrite union_empty_l_L.
    + rewrite decide_False by (by apply not_elem_of_dom).
      rewrite IH. cbn [animations with_animations].
      rewrite dom_insert_L, fmap_cons. cbn [list_to_set].
      by rewrite (assoc_L (∪)), (comm_L (∪) {[name a]} (list_to_set _)).
Qed.

(** One call returns exactly when all its arguments are admitted;
    otherwise it raises on the first that is not. *)
Lemma register_call_outcome (anims : list Animation) :
  ∀ (c : Character) (w : World),
    let adm := admitted (dom (animations c)) anims in
    (adm = anims ∧ fst (_register_animations anims (c, w)) = Returned tt) ∨
    (∃ a post,
       anims = adm ++ a :: post ∧
       name a ∈ (list_to_set (name <$> adm) ∪ dom (animations c) : gset string) ∧
       fst (_register_animations anims (c, w))
       = Raised (ValueError ("Duplicate animation '" +:+ name a +:+ "'."))).
Proof.
  induction anims as [|a rest IH]; intros c w; cbv zeta; [by left|].
  rewrite _register_animations_cons. cbn [admitted].
  destruct (animations c !! name a) as [l0|] eqn:Ea.
  - rewrite decide_True by (apply elem_of_dom; eauto).
    right. exists a, rest. split; [done|]. split; [|done].
    apply elem_of_union_r, elem_of_dom. eauto.
  - rewrite decide_False by (by apply not_elem_of_dom).
    specialize (IH (with_animations (<[name a := frames a]> (animations c)) c) w).
    cbv zeta in IH. simpl animations in IH. rewrite dom_insert_L in IH.
    destruct IH as [[Hadm Hret]|(b & post & Hsplit & Hin & Hraise)].
    + left. split; [by rewrite Hadm|done].
    + right. exists b, post. split; [by rewrite <- app_comm_cons, <- Hsplit|].
      split; [|done]. rewrite fmap_cons. cbn [list_to_set].
      apply elem_of_union in Hin as [Hin|Hin].
      * by apply elem_of_union_l, elem_of_union_r.
      * apply elem_of_union in Hin as [Hin|Hin].
        -- by apply elem_of_union_l, elem_of_union_l.
        -- by apply elem_of_union_r.
Qed.

Lemma admitted_names (anims : list Animation) :
  ∀ taken : gset string,
    NoDup (name <$> admitted taken anims) ∧
    ∀ a, a ∈ admitted taken anims → name a ∉ taken.
Proof.
  induction anims as [|a rest IH]; intros taken; simpl.
  - split; [constructor|]. intros b Hb. by apply elem_of_nil in Hb.
  - destruct (decide (name a ∈ taken)) as [Hin|Hout].
    + split; [constructor|]. intros b Hb. by apply elem_of_nil in Hb.
    + destruct (IH ({[name a]} ∪ taken)) as [Hnd Hfresh]. split.
      * rewrite fmap_cons. apply NoDup_cons. split; [|done].
        intros Hdup. apply list_elem_of_fmap in Hdup as (b & Hb & Hbin).
        apply (Hfresh b Hbin). rewrite <- Hb. by apply elem_of_union_l, elem_of_singleton.
      * intros b Hb. apply elem_of_cons in Hb as [->|Hb]; [done|].
        intros Hbt. apply (Hfresh b Hb). by apply elem_of_union_r.
Qed.

Lemma admitted_calls_names (calls : list (list Animation)) :
  ∀ taken : gset string,
    NoDup (name <$> admitted_calls taken calls) ∧
    ∀ a, a ∈ admitted_calls taken calls → name a ∉ taken.
Proof.
  induction calls as [|anims calls IH]; intros taken; simpl.
  - split; [constructor|]. intros b Hb. by apply elem_of_nil in Hb.
  - destruct (admitted_names anims taken) as [Hnd1 Hfresh1].
    destruct (IH (list_to_set (name <$> admitted taken anims) ∪ taken))
      as [Hnd2 Hfresh2].
    split.
    + rewrite fmap_app. apply NoDup_app. split; [done|]. split; [|done].
      intros n Hn1 Hn2. apply list_elem_of_fmap in Hn2 as (b & -> & Hb).
      apply (Hfresh2 b Hb). by apply elem_of_union_l, elem_of_list_to_set.
    + intros b Hb. apply elem_of_app in Hb as [Hb|Hb]; [by apply Hfresh1|].
      intros Hbt. apply (Hfresh2 b Hb). by apply elem_of_union_r.
Qed.

(** Any sequence of calls, raising ones included: a name maps to what it
    mapped to before, or else to the frames of the first animation
    admitted under it. *)
Lemma register_calls_lookup (calls : list (list Animation)) :
  ∀ (c : Character) (w : World) n,
    animations (fst (register_calls calls (c, w))) !! n
    = match animations c !! n with
      | Some l => Some l
      | None =>
          frames <$> first_named n (admitted_calls (dom (animations c)) calls)
      end.
Proof.
  induction calls as [|anims calls IH]; intros c w n.
  - simpl. by destruct (animations c !! n).
  - rewrite register_calls_cons.
    pose proof (register_call_lookup anims c w n) as Hone.
    pose proof (register_call_dom anims c w) as Hdom.
    destruct (_register_animations anims (c, w)) as [o [c1 w1]]. simpl in Hone, Hdom.
    simpl snd. rewrite IH, Hone, Hdom. cbn [admitted_calls].
    rewrite first_named_app.
    destruct (animations c !! n) as [l|]; [done|].
    by destruct (first_named n (admitted (dom (animations c)) anims)).
Qed.

(** C5. Names are unique in the registry.  Registering a name that is
    already there raises [ValueError], be it there from before the call or
    from an earlier argument of the same call; across any sequence of
    calls an entry, once made, keeps its list.  A call registers its
    arguments up to the first whose name is taken and raises on that one,
    or returns when there is none.  So after any sequence of calls, of any
    number of arguments and raising or not, a name maps to what it mapped
    to before or else to the frames of the first animation registered
    under it, and no two registered animations bear the same name. *)
Theorem registry_names_unique :
  (∀ (c : Character) (w : World) a rest l,
     animations c !! name a = Some l →
     _register_animations (a :: rest) (c, w)
     = (Raised (ValueError ("Duplicate animation '" +:+ name a +:+ "'.")), (c, w))) ∧
  (∀ (c : Character) (w : World) pre a post,
     NoDup (name <$> pre) →
     (∀ b, b ∈ pre → animations c !! name b = None) →
     name a ∈ (name <$> pre) ∨ is_Some (animations c !! name a) →
     fst (_register_animations (pre ++ a :: post) (c, w))
     = Raised (ValueError ("Duplicate animation '" +:+ name a +:+ "'."))) ∧
  (∀ calls (s : St) n l,
     animations (fst s) !! n = Some l →
     animations (fst (register_calls calls s)) !! n = Some l) ∧
  (∀ anims (c : Character) (w : World) n,
     animations c = ∅ →
     animations (fst (register_calls ((λ a, [a]) <$> anims) (c, w))) !! n
     = frames <$> first_named n anims) ∧
  (∀ anims (c : Character) (w : World),
     let adm := admitted (dom (animations c)) anims in
     (adm = anims ∧ fst (_register_animations anims (c, w)) = Returned tt) ∨
     (∃ a post,
        anims = adm ++ a :: post ∧
        name a ∈ (list_to_set (name <$> adm) ∪ dom (animations c) : gset string) ∧
        fst (_register_animations anims (c, w))
        = Raised (ValueError ("Duplicate animation '" +:+ name a +:+ "'.")))) ∧
  (∀ calls (c : Character) (w : World) n,
     animations (fst (register_calls calls (c, w))) !! n
     = match animations c !! n with
       | Some l => Some l
       | None =>
           frames <$> first_named n (admitted_calls (dom (animations c)) calls)
       end) ∧
  (∀ calls (taken : gset string),
     NoDup (name <$> admitted_calls taken calls) ∧
     ∀ a, a ∈ admitted_calls taken calls → name a ∉ taken) ∧
  (∀ anims (c : Character) (w : World) c' w',
     _register_animations anims (c, w) = (Returned tt, (c', w')) →
     ∀ n, animations c' !! n
          = match animations c !! n with
            | Some l => Some l
            | None => frames <$> first_named n anims
            end).
Proof.
  split; [|split; [|split; [|split; [|split; [|split; [|split]]]]]].
  - intros c w a rest l Hl. rewrite _register_animations_cons. by rewrite Hl.
  - intros c w pre a post Hnd Hfresh Hdup.
    rewrite _register_animations_app.
    destruct (_register_animations_returns pre c w Hnd Hfresh) as [c' Hrun].
    rewrite Hrun.
    apply _register_animations_spec in Hrun as (_ & _ & Hkeep & _ & Hall).
    assert (is_Some (animations c' !! name a)) as [l Hl].
    { destruct Hdup as [Hin|[l Hl]].
      - apply list_elem_of_fmap in Hin as (b & Hb & Hbin).
        rewrite Hb. exists (frames b). by apply Hall.
      - exists l. by apply Hkeep. }
    rewrite _register_animations_cons. by rewrite Hl.
  - intros calls s n l. apply register_calls_keep.
  - intros anims c w n Hempty. rewrite register_one_by_one. simpl.
    by rewrite Hempty, lookup_empty.
  - intros anims c w. apply register_call_outcome.
  - intros calls c w n. apply register_calls_lookup.
  - intros calls taken. apply admitted_calls_names.
  - intros anims c w c' w' Hrun n.
    pose proof (register_call_lookup anims c w n) as Hone.
    destruct (register_call_outcome anims c w) as [[Hadm _]|(a & post & _ & _ & Hraise)].
    + rewrite Hrun in Hone. simpl in Hone. by rewrite Hadm in Hone.
    + rewrite Hrun in Hraise. discriminate.
Qed.

Lemma registry_names_unique_witness :
  fst (_register_animations ([blink; look] ++ blink_again :: [])
         (blank None (Some grid23), demo_world))
    = Raised (ValueError "Duplicate animation 'blink'.") ∧
  animations (fst (register_calls [[blink]; [look]; [blink_again]]
                     (blank None (Some grid23), demo_world))) !! "blink"
    = Some 0%nat ∧
  animations (fst (register_calls [[look; blink; blink_again; look]; [blink_again]]
                     (blank None (Some grid23), demo_world))) !! "look"
    = Some 2%nat ∧
  animations (fst (register_calls [[look; blink; blink_again; look]; [blink_again]]
                     (blank None (Some grid23), demo_world))) !! "blink"
    = Some 0%nat.
Proof.
  destruct registry_names_unique as (_ & Hdup & _ & Hfirst & _ & Hcalls & _).
  split; [|split; [|split]].
  - apply (Hdup (blank None (Some grid23)) demo_world [blink; look] blink_again []).
    + simpl. apply NoDup_cons. split.
      * intros H. apply list_elem_of_singleton in H. discriminate H.
      * apply NoDup_singleton.
    + intros b _. apply lookup_empty.
    + left. simpl. apply list_elem_of_here.
  - apply (Hfirst [blink; look; blink_again] (blank None (Some grid23))
             demo_world "blink" eq_refl).
  - refine (eq_trans (Hcalls [[look; blink; blink_again; look]; [blink_again]]
                       (blank None (Some grid23)) demo_world "look") _).
    reflexivity.
  - refine (eq_trans (Hcalls [[look; blink; blink_again; look]; [blink_again]]
                       (blank None (Some grid23)) demo_world "blink") _).
    reflexivity.
Defined.

(** A construction that returns has registered every animation given. *)
Lemma Character_init_returned master anims pos path sz bg fr gc (w : World) c w' :
  Character_init master anims pos path sz bg fr gc w = (Returned c, w') →
  ∀ a, a ∈ given anims → animations c !! name a = Some (frames a).
Proof.
  rewrite Character_init_unfold. intros Hrun a Ha.
  destruct anims as [[|a0 rest]|]; try (by apply elem_of_nil in Ha).
  destruct (_register_animations (a0 :: rest) _) as [[[]|e] [c1 w1]] eqn:Hreg;
    [|done].
  inversion Hrun; subst.
  apply _register_animations_spec in Hreg as (_ & _ & _ & _ & Hall). by apply Hall.
Qed.

(** C10. Registration and lookup round trip: once an animation is
    registered, by the constructor or by [_register_animations],
    [get_animation_frames] of its name returns the very list it was built
    with, and goes on doing so after any later registration calls. *)
Theorem registration_lookup_roundtrip :
  (∀ master anims pos path sz bg fr gc (w : World) a,
     NoDup (name <$> given anims) → a ∈ given anims →
     ∃ c w', Character_init master anims pos path sz bg fr gc w = (Returned c, w') ∧
             ∀ w2, get_animation_frames (name a) (c, w2)
                   = (Returned (frames a), (c, w2))) ∧
  (∀ master anims pos path sz bg fr gc (w : World) c w' a,
     Character_init master anims pos path sz bg fr gc w = (Returned c, w') →
     a ∈ given anims →
     ∀ w2, get_animation_frames (name a) (c, w2) = (Returned (frames a), (c, w2))) ∧
  (∀ anims (c : Character) (w : World) a,
     NoDup (name <$> anims) →
     (∀ b, b ∈ anims → animations c !! name b = None) →
     a ∈ anims →
     ∃ c', _register_animations anims (c, w) = (Returned tt, (c', w)) ∧
           ∀ w2, get_animation_frames (name a) (c', w2)
                 = (Returned (frames a), (c', w2))) ∧
  (∀ (c : Character) (w : World) n l calls,
     get_animation_frames n (c, w) = (Returned l, (c, w)) →
     get_animation_frames n (register_calls calls (c, w))
     = (Returned l, register_calls calls (c, w))).
Proof.
  split; [|split; [|split]].
  - intros master anims pos path sz bg fr gc w a Hnd Ha.
    destruct (Character_init_returns master anims pos path sz bg fr gc w Hnd)
      as (c & Hrun & _ & Hall).
    exists c, (init_calls master bg sz w). split; [done|].
    intros w2. apply get_animation_frames_registered. by apply Hall.
  - intros master anims pos path sz bg fr gc w c w' a Hrun Ha w2.
    apply get_animation_frames_registered.
    by apply (Character_init_returned _ _ _ _ _ _ _ _ _ _ _ Hrun).
  - intros anims c w a Hnd Hfresh Ha.
    destruct (_register_animations_returns anims c w Hnd Hfresh) as [c' Hrun].
    exists c'. split; [done|]. intros w2.
    apply get_animation_frames_registered.
    apply _register_animations_spec in Hrun as (_ & _ & _ & _ & Hall). by apply Hall.
  - intros c w n l calls Hget.
    assert (animations c !! n = Some l) as Hl.
    { unfold get_animation_frames in Hget. unfold_m. simpl in Hget.
      destruct (animations c !! n); by inversion Hget. }
    destruct (register_calls calls (c, w)) as [c2 w2] eqn:Hcalls.
    apply get_animation_frames_registered.
    change c2 with (fst (c2, w2)). rewrite <- Hcalls.
    by apply register_calls_keep.
Qed.

Lemma registration_lookup_roundtrip_witness :
  ∃ c w', Character_init window (Some [blink; look]) (0, 0) default_images_path
            54 default_bg_color (Some window) None demo_world = (Returned c, w') ∧
          ∀ w2, get_animation_frames "look" (c, w2) = (Returned 2%nat, (c, w2)).
Proof.
  destruct registration_lookup_roundtrip as (Hinit & _).
  apply (Hinit window (Some [blink; look]) (0, 0) default_images_path 54
           default_bg_color (Some window) None demo_world look).
  - simpl. apply NoDup_cons. split.
    + intros H. apply list_elem_of_singleton in H. discriminate H.
    + apply NoDup_singleton.
  - simpl. apply list_elem_of_further, list_elem_of_here.
Defined.

Example get_animation_frames_unregistered :
  get_animation_frames "jump" (blank (Some window) None, demo_world)
    = (Raised (KeyError "jump"), (blank (Some window) None, demo_world)).
Proof. reflexivity. Qed.

(** ** Playback *)

Lemma getitem_lookup {S A} (l : list A) (i : Z) (x : A) :
  0 ≤ i → l !! Z.to_nat i = Some x →
  ∀ s : S, getitem l i s = (Returned x, s).
Proof.
  intros Hi Hx s. apply lookup_lt_Some in Hx as Hlt.
  destruct (getitem_in_range l i s) as (y & Hy & ->); [unfold len; lia|].
  congruence.
Qed.

Lemma run_frame (c : Character) (w : World) fl locs (i : Z) l fr :
  list_objs w !! fl = Some locs →
  0 ≤ i → locs !! Z.to_nat i = Some l →
  frame_objs w !! l = Some fr →
  images_path c +:+ filename fr ∈ files w →
  run fl i (c, w) =
    (Returned tt,
     (with_active_image (Some (image_of c fr)) c,
      if i <? len locs - 1
      then after (duration fr) fl (i + 1) (call (Configure (image_of c fr)) w)
      else call (Configure (image_of c fr)) w)).
Proof.
  intros Hfl Hi Hl Hfr Hfile.
  unfold run, deref_list, deref_frame. unfold_m. simpl.
  rewrite Hfl. rewrite (getitem_lookup locs i l Hi Hl). simpl. rewrite Hfr.
  rewrite bool_decide_eq_true_2 by done.
  destruct (i <? len locs - 1); [|done].
  rewrite (getitem_lookup locs i l Hi Hl). simpl. by rewrite Hfr.
Qed.

Lemma playback_single mk t i fr :
  playback mk t i [fr] = [(t, Configure (mk fr))].
Proof. done. Qed.

Lemma playback_next mk t i fr fr' rest :
  playback mk t i (fr :: fr' :: rest) =
  (t, Configure (mk fr)) :: (t, After (duration fr) (i + 1)) ::
  playback mk (t + Z.max 0 (duration fr)) (i + 1) (fr' :: rest).
Proof. done. Qed.

Lemma swaps_configure t img log :
  swaps ((t, Configure img) :: log) = (t, img) :: swaps log.
Proof. done. Qed.

Lemma swaps_after t ms i log : swaps ((t, After ms i) :: log) = swaps log.
Proof. done. Qed.

Lemma scheduled_configure t img log :
  scheduled ((t, Configure img) :: log) = scheduled log.
Proof. done. Qed.

Lemma scheduled_after t ms i log :
  scheduled ((t, After ms i) :: log) = (ms, i) :: scheduled log.
Proof. done. Qed.

Lemma playback_swaps mk (frs : list AnimationFrame) :
  ∀ t i, snd <$> swaps (playback mk t i frs) = mk <$> frs.
Proof.
  induction frs as [|fr [|fr' rest] IH]; intros t i; [done|done|].
  rewrite playback_next, swaps_configure, swaps_after, !fmap_cons.
  rewrite IH. by rewrite fmap_cons.
Qed.

Lemma playback_scheduled mk (frs : list AnimationFrame) :
  ∀ t i, scheduled (playback mk t i frs)
         = zip (duration <$> removelast frs) (seqZ (i + 1) (len frs - 1)).
Proof.
  induction frs as [|fr [|fr' rest] IH]; intros t i; [done|done|].
  rewrite playback_next, scheduled_configure, scheduled_after, IH.
  change (removelast (fr :: fr' :: rest)) with (fr :: removelast (fr' :: rest)).
  rewrite fmap_cons. rewrite (seqZ_cons (i + 1)).
  - replace (Z.succ (i + 1)) with (i + 1 + 1) by lia.
    replace (Z.pred (len (fr :: fr' :: rest) - 1)) with (len (fr' :: rest) - 1)
      by (unfold len; simpl length; lia).
    done.
  - unfold len. simpl length. lia.
Qed.

Lemma shown_durations_next t img t' img' sw :
  shown_durations ((t, img) :: (t', img') :: sw)
  = Some (t' - t) :: shown_durations ((t', img') :: sw).
Proof. done. Qed.

Lemma playback_shown mk (frs : list AnimationFrame) :
  frs ≠ [] →
  ∀ t i, shown_durations (swaps (playback mk t i frs))
         = ((λ fr, Some (Z.max 0 (duration fr))) <$> removelast frs) ++ [None].
Proof.
  induction frs as [|fr [|fr' rest] IH]; intros Hne t i; [done|done|].
  specialize (IH ltac:(done) (t + Z.max 0 (duration fr)) (i + 1)).
  change (removelast (fr :: fr' :: rest)) with (fr :: removelast (fr' :: rest)).
  rewrite fmap_cons, <- app_comm_cons, <- IH.
  rewrite playback_next, swaps_configure, swaps_after.
  destruct rest as [|fr2 rest].
  - rewrite playback_single, swaps_configure, shown_durations_next.
    f_equal. f_equal. lia.
  - rewrite playback_next, swaps_configure, shown_durations_next.
    f_equal. f_equal. lia.
Qed.

Lemma tick_frame (c : Character) (w : World) fl pre_l l rest_l fr t :
  list_objs w !! fl = Some (pre_l ++ l :: rest_l) →
  frame_objs w !! l = Some fr →
  images_path c +:+ filename fr ∈ files w →
  timers w = [ {| due := t; cb_frames := fl; cb_frame_index := len pre_l |} ] →
  tick (c, w) = Some (after_frame c w fl (len pre_l) t fr
                        (match rest_l with [] => false | _ :: _ => true end)).
Proof.
  intros Hfl Hl Hfile Htimers.
  unfold tick. simpl. rewrite Htimers. simpl.
  rewrite (run_frame c _ fl (pre_l ++ l :: rest_l) (len pre_l) l fr); try done.
  - unfold after_frame. f_equal. f_equal.
    replace (len pre_l <? len (pre_l ++ l :: rest_l) - 1)
      with (match rest_l with [] => false | _ :: _ => true end); [done|].
    unfold len. rewrite length_app. symmetry. destruct rest_l; simpl.
    + apply Z.ltb_ge. lia.
    + apply Z.ltb_lt. lia.
  - unfold len. lia.
  - unfold len. rewrite Nat2Z.id. by apply list_lookup_middle.
Qed.

(** The loop run on one pending timer of a playback: it shows the frames
    that remain, in order, and stops with nothing pending. *)
Lemma mainloop_playback (rest_l : list loc) :
  ∀ (rest_f : list AnimationFrame) (pre_l : list loc)
    (c : Character) (w : World) fl t,
    Forall2 (λ l fr, frame_objs w !! l = Some fr) rest_l rest_f →
    Forall (λ fr, images_path c +:+ filename fr ∈ files w) rest_f →
    list_objs w !! fl = Some (pre_l ++ rest_l) →
    rest_l ≠ [] →
    timers w = [ {| due := t; cb_frames := fl; cb_frame_index := len pre_l |} ] →
    ∃ c' w',
      mainloop (length rest_l) (c, w) = (c', w') ∧
      gui w' = gui w ++ playback (image_of c) (Z.max (clock w) t) (len pre_l) rest_f ∧
      timers w' = [] ∧
      frame_objs w' = frame_objs w ∧ list_objs w' = list_objs w ∧
      files w' = files w ∧ reported w' = reported w ∧
      c' = with_active_image (_active_image c') c ∧
      _active_image c' = image_of c <$> last rest_f.
Proof.
  induction rest_l as [|l rl IH];
    intros rest_f pre_l c w fl t Hfr Hfiles Hfl Hne Htimers; [done|].
  destruct rest_f as [|fr rf]; [by apply Forall2_cons_nil_inv in Hfr|].
  apply Forall2_cons in Hfr as [Hl Hrest].
  apply Forall_cons in Hfiles as [Hfile Hfiles].
  simpl mainloop. rewrite (tick_frame c w fl pre_l l rl fr t); try done.
  unfold after_frame. destruct rl as [|l2 rl].
  - apply Forall2_nil_inv_l in Hrest as ->.
    eexists _, _. split; [done|]. by simpl.
  - set (w0 := with_clock (Z.max (clock w) t) (with_timers [] w)).
    set (c1 := with_active_image (Some (image_of c fr)) c).
    set (w1 := after (duration fr) fl (len pre_l + 1)
                 (call (Configure (image_of c fr)) w0)).
    destruct (IH rf (pre_l ++ [l]) c1 w1 fl (Z.max (clock w) t + Z.max 0 (duration fr)))
      as (c' & w' & Hloop & Hgui & Htm & Hfo & Hlo & Hfi & Hrep & Hc' & Himg);
      try done.
    { simpl. by rewrite <- app_assoc. }
    { simpl. f_equal. f_equal. unfold len. rewrite length_app. simpl. lia. }
    destruct rf as [|fr2 rf]; [by apply Forall2_cons_nil_inv in Hrest|].
    exists c', w'. split; [done|].
    split; [|by repeat split; first [exact Hc' | exact Himg | done]].
    rewrite Hgui. simpl gui. rewrite <- !app_assoc. f_equal.
    rewrite playback_next. simpl app. f_equal. f_equal.
    replace (len (pre_l ++ [l])) with (len pre_l + 1)
      by (unfold len; rewrite length_app; simpl; lia).
    replace (Z.max (Z.max (clock w) t) (Z.max (clock w) t + Z.max 0 (duration fr)))
      with (Z.max (clock w) t + Z.max 0 (duration fr)) by lia.
    done.
Qed.

Lemma swaps_app log1 log2 : swaps (log1 ++ log2) = swaps log1 ++ swaps log2.
Proof. apply omap_app. Qed.

(** Tick by tick: after [k] turns of the loop the first [k] frames have
    been shown, one swap per turn. *)
Lemma mainloop_swaps (k : nat) :
  ∀ (rest_l : list loc) (rest_f : list AnimationFrame) (pre_l : list loc)
    (c : Character) (w : World) fl t,
    Forall2 (λ l fr, frame_objs w !! l = Some fr) rest_l rest_f →
    Forall (λ fr, images_path c +:+ filename fr ∈ files w) rest_f →
    list_objs w !! fl = Some (pre_l ++ rest_l) →
    timers w = [ {| due := t; cb_frames := fl; cb_frame_index := len pre_l |} ] →
    (k ≤ length rest_l)%nat →
    snd <$> swaps (gui (snd (mainloop k (c, w))))
    = (snd <$> swaps (gui w)) ++ take k (image_of c <$> rest_f).
Proof.
  induction k as [|k IH];
    intros rest_l rest_f pre_l c w fl t Hfr Hfiles Hfl Htimers Hk.
  - simpl. by rewrite app_nil_r.
  - destruct rest_l as [|l rl]; [simpl in Hk; lia|].
    destruct rest_f as [|fr rf]; [by apply Forall2_cons_nil_inv in Hfr|].
    apply Forall2_cons in Hfr as [Hl Hrest].
    apply Forall_cons in Hfiles as [Hfile Hfiles].
    simpl mainloop. rewrite (tick_frame c w fl pre_l l rl fr t); try done.
    unfold after_frame. destruct rl as [|l2 rl].
    + assert (k = 0%nat) as -> by (simpl in Hk; lia).
      apply Forall2_nil_inv_l in Hrest as ->.
      simpl. by rewrite swaps_app, fmap_app.
    + rewrite (IH (l2 :: rl) rf (pre_l ++ [l]) _ _ fl
                 (Z.max (clock w) t + Z.max 0 (duration fr))); try done.
      * simpl gui. rewrite <- app_assoc, swaps_app, fmap_app.
        rewrite fmap_cons, firstn_cons. simpl app.
        by rewrite <- app_assoc.
      * simpl. by rewrite <- app_assoc.
      * simpl. f_equal. f_equal. unfold len. rewrite length_app. simpl. lia.
      * simpl in *. lia.
Qed.

Lemma mainloop_idle (k : nat) (s : St) : tick s = None → mainloop k s = s.
Proof. intros H. destruct k; [done|]. simpl. by rewrite H. Qed.

Lemma mainloop_add (n k : nat) :
  ∀ s : St, mainloop (n + k) s = mainloop k (mainloop n s).
Proof.
  induction n as [|n IH]; intros s; [done|].
  simpl. destruct (tick s) as [s'|] eqn:E; [apply IH|].
  by rewrite mainloop_idle.
Qed.

Lemma play_animation_schedules (c : Character) (w : World) n fl l0 ls fr0 :
  animations c !! n = Some fl →
  list_objs w !! fl = Some (l0 :: ls) →
  frame_objs w !! l0 = Some fr0 →
  play_animation n (c, w) =
    (Returned tt,
     (with_active_animation_name (Some n) c, after (duration fr0) fl 0 w)).
Proof.
  intros Hn Hfl Hl0. unfold play_animation, deref_list, deref_frame.
  unfold_m. simpl. rewrite Hn. simpl. rewrite Hfl.
  rewrite getitem_zero_cons. simpl. by rewrite Hl0.
Qed.

Lemma removelast_cons_length {A} (x : A) (l : list A) :
  length (removelast (x :: l)) = length l.
Proof.
  revert x. induction l as [|y l IH]; intros x; [done|].
  specialize (IH y). simpl in *. by rewrite IH.
Qed.

(** C6, as the claim has it: every frame would be shown for its own
    duration.  The animation "blink" has two frames, of 100 ms and 200 ms.
    Played to the end, the timers scheduled are of 100 ms and 100 ms; the
    second frame is never replaced and no timer of 200 ms exists. *)
Lemma play_animation_last_frame_not_timed :
  let s := mainloop 10 (snd (play_animation "blink" (demo_character, demo_world))) in
  tick s = None ∧
  scheduled (gui (snd s)) = [(100, 0); (100, 1)] ∧
  shown_durations (swaps (gui (snd s))) = [Some 100; None] ∧
  shown_durations (swaps (gui (snd s))) ≠ [Some 100; Some 200].
Proof. vm_compute. repeat split; discriminate. Qed.

(** C6, amended. [play_animation name] on a registered animation whose
    image files exist, with no other timer pending: it returns after
    scheduling frame 0 with the delay of frame 0; the loop then shows the
    frames in list order, one swap per turn, the turns being for the
    indices 0, 1, ..., len(frames) - 1; the delay scheduled after showing
    frame [i] is the duration of frame [i], so every frame but the last
    stays for its own duration (a negative one counting as 0); the last
    frame stays displayed, its duration starting no timer; after
    len(frames) turns nothing is pending, whatever the fuel. *)
Theorem play_animation_in_order (c : Character) (w : World) (n : string)
    (fl l0 : loc) (ls : list loc) (fr0 : AnimationFrame)
    (frs : list AnimationFrame) :
  animations c !! n = Some fl →
  list_objs w !! fl = Some (l0 :: ls) →
  Forall2 (λ l fr, frame_objs w !! l = Some fr) (l0 :: ls) (fr0 :: frs) →
  Forall (λ fr, images_path c +:+ filename fr ∈ files w) (fr0 :: frs) →
  timers w = [] →
  ∃ c1 w1 c2 w2 log,
    play_animation n (c, w) = (Returned tt, (c1, w1)) ∧
    (∀ fuel, (length (fr0 :: frs) ≤ fuel)%nat →
             mainloop fuel (c1, w1) = (c2, w2)) ∧
    timers w2 = [] ∧ tick (c2, w2) = None ∧ reported w2 = reported w ∧
    gui w2 = gui w ++ log ∧
    log = (clock w, After (duration fr0) 0) ::
          playback (image_of c) (clock w + Z.max 0 (duration fr0)) 0 (fr0 :: frs) ∧
    snd <$> swaps log = image_of c <$> (fr0 :: frs) ∧
    (∀ k, (k ≤ length (fr0 :: frs))%nat →
          snd <$> swaps (gui (snd (mainloop k (c1, w1))))
          = (snd <$> swaps (gui w)) ++ take k (image_of c <$> (fr0 :: frs))) ∧
    snd <$> scheduled log = seqZ 0 (len (fr0 :: frs)) ∧
    fst <$> scheduled log = duration fr0 :: (duration <$> removelast (fr0 :: frs)) ∧
    shown_durations (swaps log)
    = ((λ fr, Some (Z.max 0 (duration fr))) <$> removelast (fr0 :: frs)) ++ [None] ∧
    _active_image c2 = image_of c <$> last (fr0 :: frs).
Proof.
  intros Hn Hfl Hfrs Hfiles Htimers.
  pose proof Hfrs as Hfrs'. apply Forall2_cons in Hfrs' as [Hl0 _].
  set (c1 := with_active_animation_name (Some n) c).
  set (w1 := after (duration fr0) fl 0 w).
  assert (timers w1 = [ {| due := clock w + Z.max 0 (duration fr0);
                           cb_frames := fl; cb_frame_index := len (@nil loc) |} ])
    as Htimers1 by (simpl; by rewrite Htimers).
  destruct (mainloop_playback (l0 :: ls) (fr0 :: frs) [] c1 w1 fl
              (clock w + Z.max 0 (duration fr0)))
    as (c2 & w2 & Hloop & Hgui & Htm & _ & _ & _ & Hrep & _ & Himg); try done.
  assert (tick (c2, w2) = None) as Hidle by (unfold tick; simpl; by rewrite Htm).
  exists c1, w1, c2, w2, ((clock w, After (duration fr0) 0) ::
    playback (image_of c) (clock w + Z.max 0 (duration fr0)) 0 (fr0 :: frs)).
  split; [by apply play_animation_schedules with (l0 := l0) (ls := ls)|].
  split.
  { intros fuel Hfuel.
    replace fuel with (length (l0 :: ls) + (fuel - length (l0 :: ls)))%nat.
    - rewrite mainloop_add, Hloop. by apply mainloop_idle.
    - apply Forall2_length in Hfrs. lia. }
  split; [done|]. split; [done|]. split; [done|].
  split.
  { rewrite Hgui. simpl gui. rewrite <- app_assoc. simpl app.
    replace (Z.max (clock w) (clock w + Z.max 0 (duration fr0)))
      with (clock w + Z.max 0 (duration fr0)) by lia.
    done. }
  split; [done|].
  split; [by rewrite swaps_after, playback_swaps|].
  split.
  { intros k Hk.
    rewrite (mainloop_swaps k (l0 :: ls) (fr0 :: frs) [] c1 w1 fl
               (clock w + Z.max 0 (duration fr0))); try done.
    - simpl gui. by rewrite swaps_app, app_nil_r.
    - apply Forall2_length in Hfrs. lia. }
  rewrite scheduled_after, playback_scheduled, !fmap_cons. simpl fst. simpl snd.
  split.
  { rewrite snd_zip.
    - rewrite (seqZ_cons 0) by (unfold len; simpl length; lia).
      by replace (Z.pred (len (fr0 :: frs))) with (len (fr0 :: frs) - 1) by lia.
    - rewrite length_fmap, removelast_cons_length, length_seqZ.
      unfold len. simpl length. lia. }
  split.
  { rewrite fst_zip; [done|].
    rewrite length_fmap, removelast_cons_length, length_seqZ.
    unfold len. simpl length. lia. }
  split; [|done].
  rewrite swaps_after. by apply playback_shown.
Qed.

Lemma play_animation_in_order_witness :
  ∃ c1 w1 c2 w2 log,
    play_animation "blink" (demo_character, demo_world) = (Returned tt, (c1, w1)) ∧
    mainloop 2 (c1, w1) = (c2, w2) ∧
    timers w2 = [] ∧
    gui w2 = gui demo_world ++ log ∧
    snd <$> scheduled log = [0; 1] ∧
    fst <$> scheduled log = [100; 100] ∧
    shown_durations (swaps log) = [Some 100; None].
Proof.
  destruct (play_animation_in_order demo_character demo_world "blink"
              0%nat 0%nat [1%nat]
              {| filename := "blink_0001.png"; duration := 100 |}
              [ {| filename := "blink_0002.png"; duration := 200 |} ])
    as (c1 & w1 & c2 & w2 & log & Hplay & Hloop & Htm & _ & _ & Hgui & _ & _ & _
        & Hidx & Hdelay & Hshown & _).
  - reflexivity.
  - reflexivity.
  - repeat constructor.
  - repeat constructor; vm_compute; reflexivity.
  - reflexivity.
  - exists c1, w1, c2, w2, log.
    split; [exact Hplay|]. split; [apply Hloop; simpl; lia|].
    split; [exact Htm|]. split; [exact Hgui|].
    split; [exact Hidx|]. split; [exact Hdelay|]. exact Hshown.
Defined.

(** ** The store is read, never written *)

Lemma getitem_state {S A} (l : list A) (i : Z) (s s' : S) o :
  getitem l i s = (o, s') → s' = s.
Proof.
  unfold getitem, raise, ret.
  destruct (_ || _); [by intros [= <- <-]|].
  destruct (l !! _); by intros [= <- <-].
Qed.

Section Keeps.
Context {S : Type} (R : relation S) `{!PreOrder R}.

Lemma keeps_ret {A} (a : A) : keeps R (ret a).
Proof. intros s o s' [= <- <-]. reflexivity. Qed.

Lemma keeps_raise {A} (e : exn) : keeps R (raise (A := A) e).
Proof. intros s o s' [= <- <-]. reflexivity. Qed.

Lemma keeps_get : keeps R get.
Proof. intros s o s' [= <- <-]. reflexivity. Qed.

Lemma keeps_getitem {A} (l : list A) (i : Z) : keeps R (getitem l i).
Proof. intros s o s' H. apply getitem_state in H as ->. reflexivity. Qed.

Lemma keeps_modify (f : S → S) : (∀ s, R s (f s)) → keeps R (modify f).
Proof. intros Hf s o s' [= <- <-]. apply Hf. Qed.

Lemma keeps_bind {A B} (m : M S A) (k : A → M S B) :
  keeps R m → (∀ a, keeps R (k a)) → keeps R (bind m k).
Proof.
  intros Hm Hk s o s'. unfold bind.
  destruct (m s) as [[a|e] s1] eqn:E; intros H.
  - transitivity s1; [by eapply Hm|by eapply Hk].
  - inversion H; subst. by eapply Hm.
Qed.

End Keeps.

#[local] Instance same_store_preorder : PreOrder same_store.
Proof.
  split.
  - by intros w.
  - intros w1 w2 w3 [H1 H2] [H3 H4]. split; congruence.
Qed.

#[local] Instance store_kept_preorder : PreOrder store_kept.
Proof.
  split.
  - intros s. unfold store_kept. reflexivity.
  - intros s1 s2 s3. unfold store_kept. apply transitivity.
Qed.

Lemma keeps_self : keeps store_kept self.
Proof. intros s o s' [= <- <-]. reflexivity. Qed.

Lemma keeps_set_self (f : Character → Character) : keeps store_kept (set_self f).
Proof. apply keeps_modify. by intros [c w]. Qed.

Lemma keeps_tk (f : World → World) :
  (∀ w, same_store w (f w)) → keeps store_kept (tk f).
Proof. intros Hf. apply keeps_modify. intros [c w]. apply Hf. Qed.

Lemma keeps_in_world {A} (m : M World A) :
  keeps same_store m → keeps store_kept (in_world m).
Proof.
  intros Hm [c w] o s'. unfold in_world. simpl.
  destruct (m w) as [o' w'] eqn:E. intros [= <- <-]. by eapply Hm.
Qed.

Lemma keeps_deref_list (l : loc) : keeps same_store (deref_list l).
Proof.
  unfold deref_list. apply keeps_bind; try apply _; [apply keeps_get, _|].
  intros w. destruct (list_objs w !! l);
    [apply keeps_ret|apply keeps_raise]; apply _.
Qed.

Lemma keeps_deref_frame (f : loc) : keeps same_store (deref_frame f).
Proof.
  unfold deref_frame. apply keeps_bind; try apply _; [apply keeps_get, _|].
  intros w. destruct (frame_objs w !! f);
    [apply keeps_ret|apply keeps_raise]; apply _.
Qed.

Lemma keeps_world_get : keeps same_store (get (S := World)).
Proof. apply keeps_get, _. Qed.

Lemma same_store_call (g : GuiCall) (w : World) : same_store w (call g w).
Proof. done. Qed.

Lemma same_store_after ms fl i (w : World) : same_store w (after ms fl i w).
Proof. done. Qed.

Create HintDb store discriminated.
#[local] Hint Resolve keeps_self keeps_set_self keeps_in_world keeps_deref_list
  keeps_deref_frame keeps_world_get same_store_call same_store_after : store.

(** One layer of a method body. *)
Ltac keeps_step :=
  lazymatch goal with
  | |- keeps _ (bind _ _) => apply keeps_bind; try apply _; [|intros ?]
  | |- keeps _ (ret _) => apply keeps_ret; apply _
  | |- keeps _ (raise _) => apply keeps_raise; apply _
  | |- keeps _ (getitem _ _) => apply keeps_getitem; apply _
  | |- keeps _ get => apply keeps_get; apply _
  | |- keeps _ (tk _) => apply keeps_tk; intros ?; auto with store
  | |- keeps _ (match ?x with _ => _ end) => destruct x
  | |- keeps _ _ => solve [auto with store]
  end.

Lemma keeps_run fl i : keeps store_kept (run fl i).
Proof. unfold run. repeat keeps_step. Qed.

Lemma keeps_play_animation n : keeps store_kept (play_animation n).
Proof. unfold play_animation. repeat keeps_step. Qed.

Lemma keeps_show kwargs : keeps store_kept (show kwargs).
Proof. unfold show. repeat keeps_step. Qed.

Lemma keeps__update_position : keeps store_kept _update_position.
Proof. unfold _update_position. repeat keeps_step. Qed.

#[local] Hint Resolve keeps__update_position : store.

Lemma keeps_set_position pos : keeps store_kept (set_position pos).
Proof. unfold set_position. repeat keeps_step. Qed.

#[local] Hint Resolve keeps_set_position : store.

Lemma keeps_move offset : keeps store_kept (move offset).
Proof. unfold move. repeat keeps_step. Qed.

Lemma keeps__register_animations anims : keeps store_kept (_register_animations anims).
Proof.
  intros [c w] o [c' w'] H.
  apply _register_animations_spec in H as (-> & _). unfold store_kept. reflexivity.
Qed.

Lemma keeps_get_animation_frames n : keeps store_kept (get_animation_frames n).
Proof. unfold get_animation_frames. repeat keeps_step. Qed.

Lemma keeps_current_position : keeps store_kept current_position.
Proof. unfold current_position. repeat keeps_step. Qed.

Lemma keeps_Animation_init n fl : keeps same_store (Animation_init n fl).
Proof.
  unfold Animation_init.
  apply keeps_bind; try apply _; [apply keeps_deref_list|]. intros l.
  destruct (bool_decide (l = [])); [apply keeps_raise|apply keeps_ret]; apply _.
Qed.

Lemma tick_store (s s' : St) : tick s = Some s' → store_kept s s'.
Proof.
  destruct s as [c w]. unfold tick. simpl.
  destruct (timers w) as [|t q]; [done|].
  destruct (run _ _ _) as [[[]|e] [c1 w1]] eqn:Hrun; intros [= <-];
    apply keeps_run in Hrun; exact Hrun.
Qed.

Lemma same_store_grows (w w' : World) : same_store w w' → store_grows w w'.
Proof. intros [H1 H2]. unfold store_grows. by rewrite H1, H2. Qed.

Lemma keeps_snd {A} (m : M St A) (s : St) :
  keeps store_kept m → same_store (snd s) (snd (snd (m s))).
Proof. intros Hm. destruct (m s) as [o s'] eqn:E. by apply Hm in E. Qed.

Lemma perform_same_store (op : Op) (s : St) :
  creates op = false → same_store (snd s) (snd (perform op s)).
Proof.
  destruct op; try discriminate; intros _; cbv beta iota delta [perform].
  - apply keeps_snd, keeps_in_world, keeps_Animation_init.
  - apply keeps_snd, keeps_play_animation.
  - apply keeps_snd, keeps_show.
  - apply keeps_snd, keeps_set_position.
  - apply keeps_snd, keeps_move.
  - apply keeps_snd, keeps__register_animations.
  - apply keeps_snd, keeps_get_animation_frames.
  - apply keeps_snd, keeps_current_position.
  - destruct (tick s) as [s'|] eqn:E; [by apply tick_store|done].
Qed.

Lemma perform_store_grows (op : Op) (s : St) :
  store_grows (snd s) (snd (perform op s)).
Proof.
  destruct (creates op) eqn:E.
  - destruct op; try discriminate; destruct s as [c w]; split; simpl;
      first [done | by apply prefix_app_r].
  - by apply same_store_grows, perform_same_store.
Qed.

Lemma session_store_grows (ops : list Op) :
  ∀ s, store_grows (snd s) (snd (session ops s)).
Proof.
  induction ops as [|op ops IH]; intros s; [done|].
  destruct (perform_store_grows op s) as [H1 H2].
  destruct (IH (perform op s)) as [H3 H4].
  split; etrans; eauto.
Qed.

Lemma session_same_store (ops : list Op) :
  ∀ s, forallb (λ op, negb (creates op)) ops = true →
       same_store (snd s) (snd (session ops s)).
Proof.
  induction ops as [|op ops IH]; intros s Hops; [done|].
  simpl in Hops. apply andb_true_iff in Hops as [Hop Hops].
  apply negb_true_iff in Hop.
  transitivity (snd (perform op s)).
  - by apply perform_same_store.
  - by apply IH.
Qed.

(** C7. No operation writes to an [AnimationFrame] or to a list of
    frames.  The operations on a character (registration, playback and
    its timer callbacks, position updates, lookups) and [Animation(...)]
    leave the store of frames and lists as it is; creating objects only
    adds to it; the constructor of [Character] leaves it as it is.  So
    across any session every frame keeps the filename and duration it was
    built with, and every list of frames its contents and order. *)
Theorem frames_never_modified :
  (∀ ops s, forallb (λ op, negb (creates op)) ops = true →
            frame_objs (snd (session ops s)) = frame_objs (snd s) ∧
            list_objs (snd (session ops s)) = list_objs (snd s)) ∧
  (∀ ops s,
     (∀ f fr, frame_objs (snd s) !! f = Some fr →
              frame_objs (snd (session ops s)) !! f = Some fr) ∧
     (∀ l fl, list_objs (snd s) !! l = Some fl →
              list_objs (snd (session ops s)) !! l = Some fl)) ∧
  (∀ master anims pos path sz bg fr gc (w : World) o w',
     Character_init master anims pos path sz bg fr gc w = (o, w') →
     frame_objs w' = frame_objs w ∧ list_objs w' = list_objs w) ∧
  (∀ filename duration (w : World),
     ∃ f, AnimationFrame_init filename duration w
          = (Returned f, with_frame_objs
               (frame_objs w ++ [ {| filename := filename;
                                     duration := default default_duration duration |} ]) w) ∧
          frame_objs w !! f = None).
Proof.
  split; [|split; [|split]].
  - intros ops s Hops. by apply session_same_store.
  - intros ops s. destruct (session_store_grows ops s) as [H1 H2]. split.
    + intros f fr Hf. by eapply prefix_lookup_Some.
    + intros l fl Hl. by eapply prefix_lookup_Some.
  - intros master anims pos path sz bg fr gc w o w'.
    rewrite Character_init_unfold.
    destruct anims as [[|a rest]|]; try (by intros [= <- <-]).
    destruct (_register_animations _ _) as [[[]|e] [c1 w1]] eqn:Hreg;
      intros [= <- <-];
      by apply _register_animations_spec in Hreg as (-> & _).
  - intros filename duration w. exists (length (frame_objs w)).
    split; [done|]. apply lookup_ge_None. lia.
Qed.

Lemma frames_never_modified_witness :
  let s := session [ RegisterAnimations [look]; PlayAnimation "blink"; Tick;
                     Move (3, 4); Tick; NewAnimationFrame "new.png" None;
                     PlayAnimation "look"; Tick; SetPosition (0, 0) ]
             (demo_character, demo_world) in
  frame_objs (snd s) !! 1%nat = Some {| filename := "blink_0002.png"; duration := 200 |} ∧
  list_objs (snd s) !! 0%nat = Some [0%nat; 1%nat].
Proof.
  destruct frames_never_modified as (_ & Hkeep & _).
  intros s. split.
  - apply (Hkeep _ (demo_character, demo_world)). reflexivity.
  - apply (Hkeep _ (demo_character, demo_world)). reflexivity.
Defined.

(** * Further properties of the code *)

(** ** Playback: errors, overlap, termination *)

Lemma getitem_index {S A} (l : list A) (i : Z) (s : S) :
  getitem l i s = match index l i with
                  | Some x => (Returned x, s)
                  | None => (Raised IndexError, s)
                  end.
Proof.
  unfold getitem, index, ret, raise.
  destruct (_ || _); [done|]. by destruct (l !! _).
Qed.

(** [run] as one case analysis. *)
Lemma run_unfold fl (i : Z) (c : Character) (w : World) :
  run fl i (c, w) =
  match list_objs w !! fl with
  | None => (Raised (SystemError "dangling list reference"), (c, w))
  | Some frames =>
      match index frames i with
      | None => (Raised IndexError, (c, w))
      | Some f =>
          match frame_objs w !! f with
          | None => (Raised (SystemError "dangling frame reference"), (c, w))
          | Some fr =>
              if bool_decide (images_path c +:+ filename fr ∈ files w)
              then (Returned tt,
                    (with_active_image (Some (image_of c fr)) c,
                     if i <? len frames - 1
                     then after (duration fr) fl (i + 1)
                            (call (Configure (image_of c fr)) w)
                     else call (Configure (image_of c fr)) w))
              else (Raised (FileNotFoundError (images_path c +:+ filename fr)),
                    (c, w))
          end
      end
  end.
Proof.
  unfold run, deref_list, deref_frame. unfold_m. simpl.
  destruct (list_objs w !! fl) as [frames|]; [|done].
  rewrite getitem_index. destruct (index frames i) as [f|] eqn:Ei; [|done].
  simpl. destruct (frame_objs w !! f) as [fr|] eqn:Ef; [|done].
  destruct (bool_decide _); [|done].
  destruct (i <? len frames - 1); [|done].
  rewrite getitem_index, Ei. simpl. by rewrite Ef.
Qed.

(** [play_animation] as one case analysis. *)
Lemma play_animation_unfold (n : string) (c : Character) (w : World) :
  play_animation n (c, w) =
  let c1 := with_active_animation_name (Some n) c in
  match animations c !! n with
  | None => (Raised (KeyError n), (c1, w))
  | Some fl =>
      match list_objs w !! fl with
      | None => (Raised (SystemError "dangling list reference"), (c1, w))
      | Some frames =>
          match index frames 0 with
          | None => (Raised IndexError, (c1, w))
          | Some f0 =>
              match frame_objs w !! f0 with
              | None => (Raised (SystemError "dangling frame reference"), (c1, w))
              | Some fr0 => (Returned tt, (c1, after (duration fr0) fl 0 w))
              end
          end
      end
  end.
Proof.
  unfold play_animation, deref_list, deref_frame. unfold_m. simpl.
  destruct (animations c !! n) as [fl|]; [|done]. simpl.
  destruct (list_objs w !! fl) as [frames|]; [|done].
  rewrite getitem_index. destruct (index frames 0) as [f0|]; [|done].
  simpl. by destruct (frame_objs w !! f0).
Qed.

(** X1. [play_animation] of a name that is not registered raises
    [KeyError] with that name; no timer is scheduled and no toolkit call
    is made, but the name has already been recorded as the active
    animation. *)
Theorem play_animation_unregistered (c : Character) (w : World) (n : string) :
  animations c !! n = None →
  play_animation n (c, w)
  = (Raised (KeyError n), (with_active_animation_name (Some n) c, w)).
Proof. intros Hn. rewrite play_animation_unfold. simpl. by rewrite Hn. Qed.

Lemma play_animation_unregistered_witness :
  play_animation "jump" (demo_character, demo_world)
  = (Raised (KeyError "jump"),
     (with_active_animation_name (Some "jump") demo_character, demo_world)).
Proof. apply play_animation_unregistered. reflexivity. Defined.

Lemma enqueue_perm (t : Timer) (q : list Timer) : enqueue t q ≡ₚ t :: q.
Proof.
  induction q as [|t' q IH]; [done|]. simpl.
  destruct (due t <? due t'); [done|]. rewrite IH. apply Permutation_swap.
Qed.

(** X3. [play_animation] cancels nothing: every timer that is pending
    when it is called is still pending when it ends, by return or by
    raise, and on return exactly one timer has been added, for frame 0. *)
Theorem play_animation_keeps_pending (c : Character) (w : World) (n : string)
    o c' w' :
  play_animation n (c, w) = (o, (c', w')) →
  (∀ t, t ∈ timers w → t ∈ timers w') ∧
  (o = Returned tt →
     ∃ t0, cb_frame_index t0 = 0 ∧ animations c !! n = Some (cb_frames t0) ∧
           timers w' ≡ₚ t0 :: timers w).
Proof.
  rewrite play_animation_unfold. simpl.
  destruct (animations c !! n) as [fl|]; [|by intros [= <- <- <-]].
  destruct (list_objs w !! fl) as [frames|]; [|by intros [= <- <- <-]].
  destruct (index frames 0) as [f0|]; [|by intros [= <- <- <-]].
  destruct (frame_objs w !! f0) as [fr0|]; [|by intros [= <- <- <-]].
  intros [= <- <- <-]. simpl. split.
  - intros t Ht. rewrite enqueue_perm. by apply list_elem_of_further.
  - intros _. eexists. split; [|split; [|apply enqueue_perm]]; done.
Qed.

Lemma play_animation_keeps_pending_witness :
  let s1 := snd (play_animation "blink" (demo_character, demo_world)) in
  let s2 := snd (play_animation "look" s1) in
  ∃ t0, cb_frame_index t0 = 0 ∧ animations (fst s1) !! "look" = Some (cb_frames t0) ∧
        timers (snd s2) ≡ₚ t0 :: timers (snd s1).
Proof.
  intros s1 s2.
  apply (play_animation_keeps_pending (fst s1) (snd s1) "look" (Returned tt)
           (fst s2) (snd s2)); reflexivity.
Defined.

Lemma sum_list_cons_nat (x : nat) (l : list nat) :
  sum_list (x :: l) = (x + sum_list l)%nat.
Proof. done. Qed.

Lemma sum_chain_enqueue (f : Timer → nat) (t : Timer) (q : list Timer) :
  sum_list (f <$> enqueue t q) = (f t + sum_list (f <$> q))%nat.
Proof.
  induction q as [|t' q IH]; [done|]. cbn [enqueue].
  destruct (due t <? due t'); [done|].
  rewrite !fmap_cons, !sum_list_cons_nat, IH. lia.
Qed.

(** What a turn of the loop does to the queue: the first timer is
    removed and at most one is added, for the next frame of the same list,
    and only when the frame that fired is not the last. *)
Lemma tick_timers (c c' : Character) (w w' : World) t q :
  timers w = t :: q →
  tick (c, w) = Some (c', w') →
  list_objs w' = list_objs w ∧
  (timers w' = q ∨
   ∃ frames d,
     list_objs w !! cb_frames t = Some frames ∧
     cb_frame_index t < len frames - 1 ∧
     timers w' = enqueue {| due := d; cb_frames := cb_frames t;
                            cb_frame_index := cb_frame_index t + 1 |} q).
Proof.
  intros Hq. unfold tick. simpl. rewrite Hq. rewrite run_unfold. simpl.
  destruct (list_objs w !! cb_frames t) as [frames|] eqn:Hfl;
    [|intros [= <- <-]; auto].
  destruct (index frames (cb_frame_index t)) as [f|];
    [|intros [= <- <-]; auto].
  destruct (frame_objs w !! f) as [fr|]; [|intros [= <- <-]; auto].
  destruct (bool_decide _); [|intros [= <- <-]; auto].
  destruct (Z.ltb_spec (cb_frame_index t) (len frames - 1)) as [Hlt|Hge];
    intros [= <- <-]; simpl; [|auto].
  split; [done|]. right. by eexists _, _.
Qed.

Lemma chain_length_store (w w' : World) (q : list Timer) :
  list_objs w' = list_objs w →
  sum_list (chain_length w' <$> q) = sum_list (chain_length w <$> q).
Proof.
  intros H. f_equal. apply list_fmap_ext. intros _ t _.
  unfold chain_length. by rewrite H.
Qed.

(** Every turn of the loop uses up pending work: the timer that fires is
    gone, and the one it may schedule has a shorter chain ahead. *)
Lemma tick_pending_work (s s' : St) :
  tick s = Some s' → (pending_work s' < pending_work s)%nat.
Proof.
  destruct s as [c w], s' as [c' w']. intros Htick.
  destruct (timers w) as [|t q] eqn:Hq.
  { unfold tick in Htick. simpl in Htick. by rewrite Hq in Htick. }
  destruct (tick_timers c c' w w' t q Hq Htick) as [Hstore Htimers].
  unfold pending_work. simpl. rewrite Hq, fmap_cons, sum_list_cons_nat.
  assert (1 ≤ chain_length w t)%nat as Hpos by (unfold chain_length; lia).
  destruct Htimers as [Hw'|(frames & d & Hfl & Hlt & Hw')]; rewrite Hw'.
  - rewrite (chain_length_store w w' q Hstore). lia.
  - rewrite sum_chain_enqueue, (chain_length_store w w' q Hstore).
    unfold chain_length at 1 3. simpl. rewrite Hstore, Hfl. simpl. lia.
Qed.

Lemma mainloop_runs_out (n : nat) :
  ∀ s : St, (pending_work s ≤ n)%nat → tick (mainloop n s) = None.
Proof.
  induction n as [|n IH]; intros s Hs; simpl.
  - destruct (tick s) as [s'|] eqn:E; [|done].
    apply tick_pending_work in E. lia.
  - destruct (tick s) as [s'|] eqn:E; [|done].
    apply IH. apply tick_pending_work in E. lia.
Qed.

(** X4. The event loop always runs out of timers: from any state, with
    any timers pending (several playbacks at once, indices out of range,
    missing files), after [pending_work] turns nothing is pending, and
    more fuel changes nothing.  No playback loops. *)
Theorem mainloop_quiesces (s : St) :
  tick (mainloop (pending_work s) s) = None ∧
  ∀ fuel, (pending_work s ≤ fuel)%nat →
          mainloop fuel s = mainloop (pending_work s) s.
Proof.
  split; [by apply mainloop_runs_out|].
  intros fuel Hfuel.
  replace fuel with (pending_work s + (fuel - pending_work s))%nat by lia.
  rewrite mainloop_add. apply mainloop_idle. by apply mainloop_runs_out.
Qed.

Lemma index_nat {A} (l : list A) (k : nat) (x : A) :
  l !! k = Some x → index l (Z.of_nat k) = Some x.
Proof.
  intros Hx. apply lookup_lt_Some in Hx as Hlt. unfold index.
  destruct (Z.ltb_spec (Z.of_nat k) 0); [lia|].
  destruct (Z.ltb_spec (Z.of_nat k) 0); [lia|].
  destruct (Z.leb_spec (Z.of_nat (length l)) (Z.of_nat k)); [lia|].
  simpl. by rewrite Nat2Z.id.
Qed.

(** A turn of the loop on a frame whose image file is missing: the
    exception is reported, the displayed image stays, nothing is
    scheduled. *)
Lemma tick_missing_image (c : Character) (w : World) fl pre_l l rest_l fr t :
  list_objs w !! fl = Some (pre_l ++ l :: rest_l) →
  frame_objs w !! l = Some fr →
  images_path c +:+ filename fr ∉ files w →
  timers w = [ {| due := t; cb_frames := fl; cb_frame_index := len pre_l |} ] →
  tick (c, w) =
    Some (c, with_reported
               (reported w ++ [FileNotFoundError (images_path c +:+ filename fr)])
               (with_clock (Z.max (clock w) t) (with_timers [] w))).
Proof.
  intros Hfl Hl Hfile Htimers. unfold tick. simpl. rewrite Htimers.
  rewrite run_unfold. simpl. rewrite Hfl.
  unfold len. rewrite (index_nat _ _ l) by by apply list_lookup_middle.
  rewrite Hl. by rewrite bool_decide_eq_false_2.
Qed.

Lemma mainloop_until_missing (shown_l : list loc) :
  ∀ (shown_f : list AnimationFrame) (pre_l : list loc)
    (c : Character) (w : World) fl t l_bad fr_bad rest_l,
    Forall2 (λ l fr, frame_objs w !! l = Some fr) shown_l shown_f →
    Forall (λ fr, images_path c +:+ filename fr ∈ files w) shown_f →
    list_objs w !! fl = Some (pre_l ++ shown_l ++ l_bad :: rest_l) →
    frame_objs w !! l_bad = Some fr_bad →
    images_path c +:+ filename fr_bad ∉ files w →
    timers w = [ {| due := t; cb_frames := fl; cb_frame_index := len pre_l |} ] →
    ∃ c' w',
      mainloop (S (length shown_l)) (c, w) = (c', w') ∧
      timers w' = [] ∧
      snd <$> swaps (gui w') = (snd <$> swaps (gui w)) ++ (image_of c <$> shown_f) ∧
      reported w'
      = reported w ++ [FileNotFoundError (images_path c +:+ filename fr_bad)] ∧
      _active_image c' = from_option Some (_active_image c)
                           (image_of c <$> last shown_f).
Proof.
  induction shown_l as [|l sl IH];
    intros shown_f pre_l c w fl t l_bad fr_bad rest_l
           Hfr Hfiles Hfl Hbad Hmiss Htimers.
  - apply Forall2_nil_inv_l in Hfr as ->.
    simpl mainloop.
    rewrite (tick_missing_image c w fl pre_l l_bad rest_l fr_bad t); try done.
    eexists _, _. split; [done|]. simpl. by rewrite !app_nil_r.
  - destruct shown_f as [|fr sf]; [by apply Forall2_cons_nil_inv in Hfr|].
    apply Forall2_cons in Hfr as [Hl Hrest].
    apply Forall_cons in Hfiles as [Hfile Hfiles].
    change (mainloop (S (length (l :: sl))) (c, w))
      with (match tick (c, w) with
            | Some s' => mainloop (S (length sl)) s'
            | None => (c, w)
            end).
    rewrite (tick_frame c w fl pre_l l (sl ++ l_bad :: rest_l) fr t); try done.
    assert (match sl ++ l_bad :: rest_l with [] => false | _ :: _ => true end = true)
      as -> by (by destruct sl).
    unfold after_frame.
    set (c1 := with_active_image (Some (image_of c fr)) c).
    set (w1 := after (duration fr) fl (len pre_l + 1) _).
    destruct (IH sf (pre_l ++ [l]) c1 w1 fl
                (Z.max (clock w) t + Z.max 0 (duration fr)) l_bad fr_bad rest_l)
      as (c' & w' & Hloop & Htm & Hsw & Hrep & Himg); try done.
    { simpl. by rewrite <- app_assoc. }
    { simpl. f_equal. f_equal. unfold len. rewrite length_app. simpl. lia. }
    exists c', w'. split; [done|]. split; [done|].
    split; [|split].
    + rewrite Hsw. simpl gui. rewrite <- app_assoc, swaps_app, fmap_app.
      rewrite fmap_cons. simpl app. by rewrite <- app_assoc.
    + done.
    + rewrite Himg. simpl. destruct sf as [|fr2 sf]; [done|].
      rewrite last_cons_cons, (last_cons fr2 sf). by destruct (last sf).
Qed.

(** A turn of the loop on a frame whose image file is missing, whatever
    else is pending: the exception is reported, the object and so the
    displayed image stay, the timer is gone and none is added. *)
Lemma tick_missing_image_any (c : Character) (w : World) t q locs l fr :
  timers w = t :: q →
  list_objs w !! cb_frames t = Some locs →
  index locs (cb_frame_index t) = Some l →
  frame_objs w !! l = Some fr →
  images_path c +:+ filename fr ∉ files w →
  tick (c, w) =
    Some (c, with_reported
               (reported w ++ [FileNotFoundError (images_path c +:+ filename fr)])
               (with_clock (Z.max (clock w) (due t)) (with_timers q w))).
Proof.
  intros Htimers Hfl Hi Hl Hfile. unfold tick. simpl. rewrite Htimers.
  rewrite run_unfold. simpl. rewrite Hfl, Hi, Hl.
  by rewrite bool_decide_eq_false_2.
Qed.

(** X2. A missing image file does not make [play_animation] raise: it
    returns as usual.  Whenever the timer of a frame whose image is
    missing fires, whatever else is pending, the [FileNotFoundError] is
    raised inside the callback, the displayed image stays and that
    playback schedules nothing more.  When no other timer is pending, the
    playback shows the frames before the first missing image, in order,
    and stops there: the frame before stays displayed, the frames after
    are never shown, and nothing is left pending. *)
Theorem playback_stops_at_missing_image (c : Character) (w : World)
    (n : string) (fl : loc) (shown_l : list loc) (l_bad : loc)
    (rest_l : list loc) (shown_f : list AnimationFrame)
    (fr_bad : AnimationFrame) :
  animations c !! n = Some fl →
  list_objs w !! fl = Some (shown_l ++ l_bad :: rest_l) →
  Forall2 (λ l fr, frame_objs w !! l = Some fr) shown_l shown_f →
  Forall (λ fr, images_path c +:+ filename fr ∈ files w) shown_f →
  frame_objs w !! l_bad = Some fr_bad →
  images_path c +:+ filename fr_bad ∉ files w →
  ∃ c1 w1,
    play_animation n (c, w) = (Returned tt, (c1, w1)) ∧
    (timers w = [] →
     ∃ c2 w2,
       (∀ fuel, (S (length shown_l) ≤ fuel)%nat →
                mainloop fuel (c1, w1) = (c2, w2)) ∧
       timers w2 = [] ∧
       snd <$> swaps (gui w2)
       = (snd <$> swaps (gui w)) ++ (image_of c <$> shown_f) ∧
       reported w2
       = reported w ++ [FileNotFoundError (images_path c +:+ filename fr_bad)] ∧
       _active_image c2 = from_option Some (_active_image c)
                            (image_of c <$> last shown_f)) ∧
    (∀ (c' : Character) (w' : World) t q locs l fr,
       timers w' = t :: q →
       list_objs w' !! cb_frames t = Some locs →
       index locs (cb_frame_index t) = Some l →
       frame_objs w' !! l = Some fr →
       images_path c' +:+ filename fr ∉ files w' →
       tick (c', w') =
         Some (c', with_reported
                     (reported w' ++
                      [FileNotFoundError (images_path c' +:+ filename fr)])
                     (with_clock (Z.max (clock w') (due t)) (with_timers q w')))).
Proof.
  intros Hn Hfl Hfr Hfiles Hbad Hmiss.
  assert (∃ l0 ls fr0, shown_l ++ l_bad :: rest_l = l0 :: ls ∧
                       frame_objs w !! l0 = Some fr0) as (l0 & ls & fr0 & Hl0 & Hfr0).
  { destruct Hfr as [|l fr sl sf Hl _]; simpl; eauto. }
  set (c1 := with_active_animation_name (Some n) c).
  set (w1 := after (duration fr0) fl 0 w).
  exists c1, w1.
  split.
  { apply play_animation_schedules with (l0 := l0) (ls := ls); try done.
    by rewrite Hfl, Hl0. }
  split; [|intros c' w' t q locs l fr; apply tick_missing_image_any].
  intros Htimers.
  destruct (mainloop_until_missing shown_l shown_f [] c1 w1 fl
              (clock w + Z.max 0 (duration fr0)) l_bad fr_bad rest_l)
    as (c2 & w2 & Hloop & Htm & Hsw & Hrep & Himg); try done.
  { simpl. by rewrite Htimers. }
  exists c2, w2.
  split.
  { intros fuel Hfuel.
    replace fuel with (S (length shown_l) + (fuel - S (length shown_l)))%nat by lia.
    rewrite mainloop_add, Hloop. apply mainloop_idle.
    unfold tick. simpl. by rewrite Htm. }
  split; [done|]. split; [|done].
  rewrite Hsw. simpl gui. by rewrite swaps_app, app_nil_r.
Qed.

Lemma playback_stops_at_missing_image_witness :
  ∃ c1 w1 c2 w2,
    play_animation "blink" (demo_character, demo_world_incomplete)
      = (Returned tt, (c1, w1)) ∧
    mainloop 5 (c1, w1) = (c2, w2) ∧
    timers w2 = [] ∧
    snd <$> swaps (gui w2)
      = [ {| image_file := "./assets/images/blink_0001.png"; image_size := (54, 54) |} ] ∧
    reported w2 = [FileNotFoundError "./assets/images/blink_0002.png"].
Proof.
  destruct (playback_stops_at_missing_image demo_character demo_world_incomplete
              "blink" 0%nat [0%nat] 1%nat []
              [ {| filename := "blink_0001.png"; duration := 100 |} ]
              {| filename := "blink_0002.png"; duration := 200 |})
    as (c1 & w1 & Hplay & Hrest & _).
  - reflexivity.
  - reflexivity.
  - repeat constructor.
  - repeat constructor; vm_compute; reflexivity.
  - reflexivity.
  - vm_compute. intros H. discriminate H.
  - destruct (Hrest eq_refl) as (c2 & w2 & Hloop & Htm & Hsw & Hrep & _).
    exists c1, w1, c2, w2.
    split; [exact Hplay|]. split; [apply Hloop; simpl; lia|].
    split; [exact Htm|]. split; [exact Hsw|exact Hrep].
Defined.

(** With a playback of "look" already pending, the missing image of
    "blink" stops "blink" only: "look" is shown after it. *)
Example missing_image_with_other_playback :
  let s0 := snd (play_animation "look" (demo_character, demo_world_incomplete)) in
  let s := mainloop 5 (snd (play_animation "blink" s0)) in
  timers (snd s) = [] ∧
  reported (snd s) = [FileNotFoundError "./assets/images/blink_0002.png"] ∧
  image_file <$> (snd <$> swaps (gui (snd s)))
  = ["./assets/images/blink_0001.png"; "./assets/images/look_0001.png"].
Proof. vm_compute. repeat split. Qed.

(** ** Positions: placement, invariants, independence from playback *)

(** [_update_position] as one case analysis. *)
Lemma _update_position_unfold (c : Character) (w : World) :
  _update_position (c, w) =
  match grid_cells c with
  | Some grid =>
      let '(row, col) := position c in
      if row <? 0 then (Returned tt, (c, w))
      else if col <? 0 then (Returned tt, (c, w))
      else if len grid <=? row then (Returned tt, (c, w))
      else match index grid row with
           | None => (Raised IndexError, (c, w))
           | Some r =>
               if len r <=? col then (Returned tt, (c, w))
               else match index r col with
                    | None => (Raised IndexError, (c, w))
                    | Some target_cell =>
                        (Returned tt,
                         (c, call (Place (fst (cell_place c target_cell))
                                         (snd (cell_place c target_cell)))
                               (call UpdateIdletasks w)))
                    end
           end
  | None =>
      match frame c with
      | Some f =>
          (Returned tt,
           (c, call (PlaceIn f (fst (position c)) (snd (position c)))
                 (call GridForget (call PlaceForget w))))
      | None => (Raised (RuntimeError "No frame or grid_cells was defined."), (c, w))
      end
  end.
Proof.
  unfold _update_position. unfold_m. simpl.
  destruct (grid_cells c) as [grid|]; destruct (position c) as [row col].
  - destruct (row <? 0); [done|]. destruct (col <? 0); [done|].
    destruct (len grid <=? row); [done|].
    rewrite getitem_index. destruct (index grid row) as [r|] eqn:Er; [|done].
    destruct (len r <=? col); [done|].
    rewrite getitem_index, Er, getitem_index.
    by destruct (index r col).
  - by destruct (frame c).
Qed.

(** [set_position] as one case analysis over [_update_position]. *)
Lemma set_position_unfold (pos : Z * Z) (c : Character) (w : World) :
  set_position pos (c, w) =
  let apply :=
    match _update_position (with_position pos c, w) with
    | (Returned _, s') => (Returned true, s')
    | (Raised e, s') => (Raised e, s')
    end in
  match grid_cells c with
  | Some grid =>
      if negb ((0 <=? fst pos) && (fst pos <? len grid) &&
               ((0 <=? snd pos) && (snd pos <? grid_cols grid)))
      then (Returned false, (c, w))
      else apply
  | None => apply
  end.
Proof.
  destruct pos as [row col]. unfold set_position.
  unfold bind at 1. unfold self at 1. simpl.
  destruct (grid_cells c) as [grid|].
  - unfold bind at 1. rewrite first_row_columns.
    destruct (negb _); [done|]. by unfold_m.
  - by unfold_m.
Qed.

(** What [_update_position] leaves behind, however it ends: the object
    is the same and the world has at most some placement calls more. *)
Lemma _update_position_effect (c : Character) (w : World) o c' w' :
  _update_position (c, w) = (o, (c', w')) →
  c' = c ∧ ∃ calls, Forall (λ g, quiet g = true) calls ∧
                    w' = foldl (λ w g, call g w) w calls.
Proof.
  rewrite _update_position_unfold.
  assert (∀ o', (o', (c, w)) = (o, (c', w')) →
            c' = c ∧ ∃ calls, Forall (λ g, quiet g = true) calls ∧
                              w' = foldl (λ w g, call g w) w calls) as Hsame.
  { intros o' [= <- <- <-]. split; [done|]. by exists []. }
  destruct (grid_cells c) as [grid|]; [destruct (position c) as [row col]|].
  - destruct (row <? 0); [apply Hsame|]. destruct (col <? 0); [apply Hsame|].
    destruct (len grid <=? row); [apply Hsame|].
    destruct (index grid row) as [r|]; [|apply Hsame].
    destruct (len r <=? col); [apply Hsame|].
    destruct (index r col) as [t|]; [|apply Hsame].
    intros [= <- <- <-]. split; [done|].
    eexists [UpdateIdletasks; Place _ _]. split; [by repeat constructor|done].
  - destruct (frame c) as [f|]; [|apply Hsame].
    intros [= <- <- <-]. split; [done|].
    eexists [PlaceForget; GridForget; PlaceIn _ _ _].
    split; [by repeat constructor|done].
Qed.

Lemma with_position_same (c : Character) : with_position (position c) c = c.
Proof. by destruct c. Qed.

(** What [set_position] leaves behind, however it ends. *)
Lemma set_position_effect (pos : Z * Z) (c : Character) (w : World) o c' w' :
  set_position pos (c, w) = (o, (c', w')) →
  (c' = c ∨ c' = with_position pos c) ∧
  ∃ calls, Forall (λ g, quiet g = true) calls ∧
           w' = foldl (λ w g, call g w) w calls.
Proof.
  rewrite set_position_unfold. simpl.
  assert (match _update_position (with_position pos c, w) with
          | (Returned _, s') => (Returned true, s')
          | (Raised e, s') => (Raised e, s')
          end = (o, (c', w')) →
          (c' = c ∨ c' = with_position pos c) ∧
          ∃ calls, Forall (λ g, quiet g = true) calls ∧
                   w' = foldl (λ w g, call g w) w calls) as Happly.
  { destruct (_update_position _) as [o1 [c1 w1]] eqn:Hup.
    apply _update_position_effect in Hup as (-> & calls & Hq & ->).
    destruct o1; intros [= <- <- <-]; eauto. }
  destruct (grid_cells c) as [grid|]; [|exact Happly].
  destruct (negb _); [|exact Happly].
  intros [= <- <- <-]. split; [by left|]. by exists [].
Qed.

Lemma quiet_calls_log (calls : list GuiCall) :
  Forall (λ g, quiet g = true) calls →
  ∀ w, let w' := foldl (λ w g, call g w) w calls in
       frame_objs w' = frame_objs w ∧ list_objs w' = list_objs w ∧
       files w' = files w ∧ clock w' = clock w ∧ timers w' = timers w ∧
       reported w' = reported w ∧
       swaps (gui w') = swaps (gui w) ∧ scheduled (gui w') = scheduled (gui w).
Proof.
  induction 1 as [|g calls Hg _ IH]; intros w; [done|].
  simpl. destruct (IH (call g w)) as (-> & -> & -> & -> & -> & -> & -> & ->).
  simpl. repeat split; try done.
  - rewrite swaps_app. destruct g; try discriminate; simpl; by rewrite app_nil_r.
  - unfold scheduled. rewrite omap_app.
    destruct g; try discriminate; simpl; by rewrite app_nil_r.
Qed.

Lemma index_at {A} (l : list A) (i : Z) (x : A) :
  0 ≤ i → l !! Z.to_nat i = Some x → index l i = Some x.
Proof.
  intros Hi Hx. rewrite <- (Z2Nat.id i) by done. by apply index_nat.
Qed.

(** The calls of [_update_position], exactly. *)
Lemma _update_position_calls (c : Character) (w : World) o c' w' :
  _update_position (c, w) = (o, (c', w')) →
  ∃ calls, placement_calls calls ∧ w' = foldl (λ w g, call g w) w calls.
Proof.
  rewrite _update_position_unfold.
  assert (∀ o', (o', (c, w)) = (o, (c', w')) →
            ∃ calls, placement_calls calls ∧
                     w' = foldl (λ w g, call g w) w calls) as Hsame.
  { intros o' [= <- <- <-]. exists []. split; [by left|done]. }
  destruct (grid_cells c) as [grid|]; [destruct (position c) as [row col]|].
  - destruct (row <? 0); [apply Hsame|]. destruct (col <? 0); [apply Hsame|].
    destruct (len grid <=? row); [apply Hsame|].
    destruct (index grid row) as [r|]; [|apply Hsame].
    destruct (len r <=? col); [apply Hsame|].
    destruct (index r col) as [t|]; [|apply Hsame].
    intros [= <- <- <-]. eexists [UpdateIdletasks; Place _ _].
    split; [right; left; eauto|done].
  - destruct (frame c) as [f|]; [|apply Hsame].
    intros [= <- <- <-]. eexists [PlaceForget; GridForget; PlaceIn _ _ _].
    split; [right; right; eauto|done].
Qed.

(** The calls of [set_position], exactly. *)
Lemma set_position_calls (pos : Z * Z) (s : St) :
  ∃ calls, placement_calls calls ∧
           snd (snd (set_position pos s)) = foldl (λ w g, call g w) (snd s) calls.
Proof.
  destruct s as [c w]. rewrite set_position_unfold. simpl.
  assert (∃ calls, placement_calls calls ∧
            snd (snd (match _update_position (with_position pos c, w) with
                      | (Returned _, s') => (Returned true, s')
                      | (Raised e, s') => (Raised e, s')
                      end))
            = foldl (λ w g, call g w) w calls) as Happly.
  { destruct (_update_position _) as [o1 [c1 w1]] eqn:Hup.
    apply _update_position_calls in Hup as (calls & Hshape & ->).
    exists calls. split; [done|]. by destruct o1. }
  destruct (grid_cells c) as [grid|]; [|exact Happly].
  destruct (negb _); [|exact Happly].
  exists []. split; [by left|done].
Qed.

Lemma calls_log (calls : list GuiCall) :
  ∀ w, gui (foldl (λ w g, call g w) w calls)
       = gui w ++ ((λ g, (clock w, g)) <$> calls).
Proof.
  induction calls as [|g calls IH]; intros w; simpl; [by rewrite app_nil_r|].
  rewrite IH. simpl. by rewrite <- app_assoc.
Qed.

(** X13. Moving the character leaves a playback alone.  Whatever
    [set_position] or [move] does (accept, reject or raise), the registry,
    the active animation and image, the pending timers, the clock, the
    store, the files, the reported errors, the images shown so far and the
    timers scheduled so far are all as before; and the world afterwards is
    the world before with placement calls appended to the log and nothing
    else: none, or [update_idletasks] and one [place], or [place_forget],
    [grid_forget] and one [place] in the frame. *)
Theorem moving_leaves_playback_alone (s : St) :
  (∀ pos, playback_view (snd (set_position pos s)) = playback_view s) ∧
  (∀ offset, playback_view (snd (move offset s)) = playback_view s) ∧
  (∀ pos, ∃ calls,
     placement_calls calls ∧
     snd (snd (set_position pos s)) = foldl (λ w g, call g w) (snd s) calls ∧
     gui (snd (snd (set_position pos s)))
     = gui (snd s) ++ ((λ g, (clock (snd s), g)) <$> calls)) ∧
  (∀ offset, ∃ calls,
     placement_calls calls ∧
     snd (snd (move offset s)) = foldl (λ w g, call g w) (snd s) calls ∧
     gui (snd (snd (move offset s)))
     = gui (snd s) ++ ((λ g, (clock (snd s), g)) <$> calls)).
Proof.
  assert (∀ pos, playback_view (snd (set_position pos s)) = playback_view s) as Hset.
  { intros pos. destruct s as [c w].
    destruct (set_position pos (c, w)) as [o [c' w']] eqn:Hrun.
    apply set_position_effect in Hrun as (Hc' & calls & Hq & ->).
    destruct (quiet_calls_log calls Hq w) as (H1 & H2 & H3 & H4 & H5 & H6 & H7 & H8).
    unfold playback_view. simpl. rewrite H1, H2, H3, H4, H5, H6, H7, H8.
    by destruct Hc' as [->| ->]. }
  assert (∀ pos, ∃ calls,
     placement_calls calls ∧
     snd (snd (set_position pos s)) = foldl (λ w g, call g w) (snd s) calls ∧
     gui (snd (snd (set_position pos s)))
     = gui (snd s) ++ ((λ g, (clock (snd s), g)) <$> calls)) as Hcalls.
  { intros pos. destruct (set_position_calls pos s) as (calls & Hshape & Hw).
    exists calls. split; [done|]. split; [done|]. rewrite Hw. apply calls_log. }
  split; [exact Hset|]. split; [|split; [exact Hcalls|]].
  - intros [dx dy]. destruct s as [c w]. rewrite move_unfold. apply Hset.
  - intros [dx dy]. destruct s as [c w]. rewrite move_unfold. apply Hcalls.
Qed.

(** A move in frame mode while "blink" is pending: the timer stays and
    the log gains the three calls of the frame branch. *)
Example move_during_playback :
  let s := snd (play_animation "blink" (demo_character, demo_world)) in
  timers (snd (snd (move (3, 4) s))) = timers (snd s) ∧
  gui (snd (snd (move (3, 4) s)))
  = gui (snd s) ++ [(0, PlaceForget); (0, GridForget); (0, PlaceIn window 3 4)].
Proof. split; reflexivity. Qed.

(** X7. In grid mode an accepted position that names a cell puts the
    wrapper in the middle of that cell: the only toolkit calls are
    [update_idletasks] and one [place], and the room left in the cell is
    split evenly, the right and bottom margins being at most one pixel
    larger than the left and top ones. *)
Theorem set_position_centres_in_cell (c : Character) (w : World)
    (grid : list (list Widget)) (row col : Z) (r : list Widget)
    (target_cell : Widget) :
  grid_cells c = Some grid →
  in_grid_bounds grid (row, col) →
  grid !! Z.to_nat row = Some r →
  r !! Z.to_nat col = Some target_cell →
  let x := fst (cell_place c target_cell) in
  let y := snd (cell_place c target_cell) in
  let cell_x := winfo_rootx target_cell - winfo_rootx (master c) in
  let cell_y := winfo_rooty target_cell - winfo_rooty (master c) in
  set_position (row, col) (c, w)
  = (Returned true,
     (with_position (row, col) c, call (Place x y) (call UpdateIdletasks w))) ∧
  (let left := x - cell_x in
   let right := (cell_x + winfo_width target_cell) - (x + size c) in
   left ≤ right ≤ left + 1) ∧
  (let top := y - cell_y in
   let bottom := (cell_y + winfo_height target_cell) - (y + size c) in
   top ≤ bottom ≤ top + 1).
Proof.
  intros Hg Hin Hr Ht x y cell_x cell_y. split.
  - rewrite set_position_unfold. simpl. rewrite Hg.
    destruct Hin as [[Hr0 Hr1] [Hc0 Hc1]]. simpl in *.
    rewrite (proj2 (in_grid_bounds_dec grid row col)) by (split; simpl; lia).
    simpl. rewrite _update_position_unfold. simpl. rewrite Hg.
    destruct (Z.ltb_spec row 0); [lia|]. destruct (Z.ltb_spec col 0); [lia|].
    destruct (Z.leb_spec (len grid) row); [lia|].
    rewrite (index_at grid row r) by done.
    apply lookup_lt_Some in Ht as Hlt.
    destruct (Z.leb_spec (len r) col); [unfold len in *; lia|].
    by rewrite (index_at r col target_cell).
  - unfold x, y, cell_x, cell_y, cell_place. simpl.
    pose proof (Z.div_mod (winfo_width target_cell - size c) 2 ltac:(lia)).
    pose proof (Z.mod_pos_bound (winfo_width target_cell - size c) 2 ltac:(lia)).
    pose proof (Z.div_mod (winfo_height target_cell - size c) 2 ltac:(lia)).
    pose proof (Z.mod_pos_bound (winfo_height target_cell - size c) 2 ltac:(lia)).
    lia.
Qed.

Lemma set_position_centres_in_cell_witness :
  set_position (1, 2) (blank None (Some grid23), empty_world)
  = (Returned true,
     (with_position (1, 2) (blank None (Some grid23)),
      call (Place 133 69) (call UpdateIdletasks empty_world))).
Proof.
  destruct (set_position_centres_in_cell (blank None (Some grid23)) empty_world
              grid23 1 2 [cell 0 64; cell 64 64; cell 128 64] (cell 128 64))
    as [Hrun _].
  - reflexivity.
  - unfold in_grid_bounds. vm_compute. repeat split; discriminate.
  - reflexivity.
  - reflexivity.
  - exact Hrun.
Defined.

(** X8. In grid mode a position inside the bounds of [set_position] whose
    row is too short to hold the column is accepted all the same: [True]
    is returned and the position is stored, but the wrapper is not moved
    and no toolkit call is made. *)
Theorem set_position_short_row_not_placed (c : Character) (w : World)
    (grid : list (list Widget)) (row col : Z) (r : list Widget) :
  grid_cells c = Some grid →
  in_grid_bounds grid (row, col) →
  grid !! Z.to_nat row = Some r →
  len r ≤ col →
  set_position (row, col) (c, w)
  = (Returned true, (with_position (row, col) c, w)).
Proof.
  intros Hg Hin Hr Hshort.
  rewrite set_position_unfold. simpl. rewrite Hg.
  destruct Hin as [[Hr0 Hr1] [Hc0 Hc1]]. simpl in *.
  rewrite (proj2 (in_grid_bounds_dec grid row col)) by (split; simpl; lia).
  simpl. rewrite _update_position_unfold. simpl. rewrite Hg.
  destruct (Z.ltb_spec row 0); [lia|]. destruct (Z.ltb_spec col 0); [lia|].
  destruct (Z.leb_spec (len grid) row); [lia|].
  rewrite (index_at grid row r) by done.
  destruct (Z.leb_spec (len r) col); [done|lia].
Qed.

Lemma set_position_short_row_not_placed_witness :
  set_position (1, 2) (blank None (Some ragged), empty_world)
  = (Returned true, (with_position (1, 2) (blank None (Some ragged)), empty_world)).
Proof.
  apply (set_position_short_row_not_placed (blank None (Some ragged)) empty_world
           ragged 1 2 [cell 0 64]).
  - reflexivity.
  - unfold in_grid_bounds. vm_compute. repeat split; discriminate.
  - reflexivity.
  - vm_compute. discriminate.
Defined.

Lemma with_active_image_same (c : Character) :
  with_active_image (_active_image c) c = c.
Proof. by destruct c. Qed.

(** What a turn of the loop does to the object: at most the displayed
    image changes. *)
Lemma tick_character (c c' : Character) (w w' : World) :
  tick (c, w) = Some (c', w') → c' = with_active_image (_active_image c') c.
Proof.
  unfold tick. simpl. destruct (timers w) as [|t q]; [done|].
  rewrite run_unfold. simpl.
  destruct (list_objs w !! cb_frames t) as [frames|];
    [|intros [= <- <-]; by rewrite with_active_image_same].
  destruct (index frames (cb_frame_index t)) as [f|];
    [|intros [= <- <-]; by rewrite with_active_image_same].
  destruct (frame_objs w !! f) as [fr|];
    [|intros [= <- <-]; by rewrite with_active_image_same].
  destruct (bool_decide _);
    intros [= <- <-]; [done|by rewrite with_active_image_same].
Qed.

(** The one attribute of the object an operation may write. *)
Lemma perform_character (op : Op) (c : Character) (w : World) :
  let c' := fst (perform op (c, w)) in
  c' = match op with
       | PlayAnimation n => with_active_animation_name (Some n) c
       | SetPosition _ | Move _ => with_position (position c') c
       | RegisterAnimations _ => with_animations (animations c') c
       | Tick => with_active_image (_active_image c') c
       | _ => c
       end.
Proof.
  destruct op; cbv beta iota delta [perform]; cbv zeta.
  - done.
  - done.
  - unfold in_world. simpl. by destruct (Animation_init _ _ _).
  - rewrite play_animation_unfold. simpl.
    destruct (animations c !! name0) as [fl|]; [|done].
    destruct (list_objs w !! fl) as [frames|]; [|done].
    destruct (index frames 0) as [f0|]; [|done].
    by destruct (frame_objs w !! f0).
  - done.
  - destruct (set_position pos (c, w)) as [o [c' w']] eqn:Hrun.
    apply set_position_effect in Hrun as ([->| ->] & _); simpl;
      [by rewrite with_position_same|done].
  - destruct offset as [dx dy]. rewrite move_unfold.
    destruct (set_position _ (c, w)) as [o [c' w']] eqn:Hrun.
    apply set_position_effect in Hrun as ([->| ->] & _); simpl;
      [by rewrite with_position_same|done].
  - destruct (_register_animations anims (c, w)) as [o [c' w']] eqn:Hrun.
    by apply _register_animations_spec in Hrun as (_ & Hc' & _).
  - unfold get_animation_frames. unfold_m. simpl.
    by destruct (animations c !! name0).
  - done.
  - destruct (tick (c, w)) as [[c' w']|] eqn:E; simpl.
    + by apply tick_character in E.
    + by rewrite with_active_image_same.
Qed.

Lemma session_cons (op : Op) (ops : list Op) (s : St) :
  session (op :: ops) s = session ops (perform op s).
Proof. done. Qed.

(** X14. Each operation writes its own attribute and no other.  Across
    any session the attributes set by the constructor ([master], the
    colour, [images_path], [size], [frame], [grid_cells]) keep their
    values, and so does [current_frame_index], which playback never
    advances; the position changes only by [set_position] and [move], the
    registry only by registration, the active name only by
    [play_animation], the displayed image only by timer callbacks. *)
Theorem attributes_written_by (ops : list Op) (s : St) :
  let c := fst s in
  let c' := fst (session ops s) in
  (master c' = master c ∧ _background_color c' = _background_color c ∧
   images_path c' = images_path c ∧ size c' = size c ∧
   frame c' = frame c ∧ grid_cells c' = grid_cells c ∧
   current_frame_index c' = current_frame_index c) ∧
  (forallb (λ op, negb (moves op)) ops = true → position c' = position c) ∧
  (forallb (λ op, negb (registers op)) ops = true → animations c' = animations c) ∧
  (forallb (λ op, negb (plays op)) ops = true →
     _active_animation_name c' = _active_animation_name c) ∧
  (forallb (λ op, negb (ticks op)) ops = true → _active_image c' = _active_image c).
Proof.
  revert s. induction ops as [|op ops IH]; intros s; [done|].
  rewrite session_cons. specialize (IH (perform op s)).
  destruct s as [c w]. pose proof (perform_character op c w) as Hop.
  simpl in *. set (c1 := fst (perform op (c, w))) in *.
  destruct IH as ((H1 & H2 & H3 & H4 & H5 & H6 & H7) & Hpos & Hreg & Hname & Himg).
  assert (master c1 = master c ∧ _background_color c1 = _background_color c ∧
          images_path c1 = images_path c ∧ size c1 = size c ∧ frame c1 = frame c ∧
          grid_cells c1 = grid_cells c ∧
          current_frame_index c1 = current_frame_index c)
    as (G1 & G2 & G3 & G4 & G5 & G6 & G7)
    by (rewrite Hop; by destruct op).
  split; [repeat split; congruence|].
  split; [|split; [|split]]; intros Hall;
    apply andb_true_iff in Hall as [Hhead Hall].
  - rewrite (Hpos Hall). rewrite Hop. by destruct op.
  - rewrite (Hreg Hall). rewrite Hop. by destruct op.
  - rewrite (Hname Hall). rewrite Hop. by destruct op.
  - rewrite (Himg Hall). rewrite Hop. by destruct op.
Qed.

Lemma attributes_written_by_witness :
  let s := session [ PlayAnimation "blink"; Tick; Tick; Show [];
                     RegisterAnimations [look]; GetAnimationFrames "look" ]
             (demo_character, demo_world) in
  position (fst s) = (0, 0) ∧ current_frame_index (fst s) = 0.
Proof.
  destruct (attributes_written_by
              [ PlayAnimation "blink"; Tick; Tick; Show [];
                RegisterAnimations [look]; GetAnimationFrames "look" ]
              (demo_character, demo_world))
    as ((_ & _ & _ & _ & _ & _ & Hidx) & Hpos & _).
  split; [apply Hpos; reflexivity|exact Hidx].
Defined.

Lemma set_position_keeps_bounds (c : Character) (w : World) grid (pos : Z * Z) :
  grid_cells c = Some grid →
  let c' := fst (snd (set_position pos (c, w))) in
  grid_cells c' = Some grid ∧
  (in_grid_bounds grid (position c) → in_grid_bounds grid (position c')) ∧
  (fst (set_position pos (c, w)) = Returned true →
     in_grid_bounds grid (position c')).
Proof.
  intros Hg. destruct (set_position_grid c w grid pos Hg) as [Hin Hout].
  destruct (in_grid_bounds_decide grid pos) as [H|H].
  - destruct (Hin H) as (w' & -> & _). by simpl.
  - rewrite (Hout H). simpl. split; [done|]. split; [done|discriminate].
Qed.

(** X5. In grid mode the position cannot leave the grid.  Once the stored
    position is within the bounds it stays within them across any session
    (moves, playback, registration, timer callbacks); and whatever the
    stored position was, an accepted [set_position] or [move] leaves it
    within the bounds.  The constructor does not check the initial
    position, which is why the first part has a hypothesis. *)
Theorem grid_position_stays_in_bounds (ops : list Op) (c : Character)
    (w : World) (grid : list (list Widget)) :
  grid_cells c = Some grid →
  (in_grid_bounds grid (position c) →
     in_grid_bounds grid (position (fst (session ops (c, w))))) ∧
  (∀ pos, fst (set_position pos (c, w)) = Returned true →
          in_grid_bounds grid (position (fst (snd (set_position pos (c, w)))))) ∧
  (∀ offset, fst (move offset (c, w)) = Returned true →
             in_grid_bounds grid (position (fst (snd (move offset (c, w)))))).
Proof.
  intros Hg. split; [|split].
  - revert c w Hg. induction ops as [|op ops IH]; intros c w Hg Hin; [done|].
    rewrite session_cons.
    destruct (perform op (c, w)) as [c1 w1] eqn:Hop.
    assert (grid_cells c1 = Some grid ∧ in_grid_bounds grid (position c1)) as [Hg1 Hin1].
    { pose proof (perform_character op c w) as Hc. rewrite Hop in Hc. simpl in Hc.
      destruct op; try (rewrite Hc; done).
      - cbv beta iota delta [perform] in Hop.
        destruct (set_position_keeps_bounds c w grid pos Hg) as (G1 & G2 & _).
        rewrite Hop in G1, G2. auto.
      - cbv beta iota delta [perform] in Hop. destruct offset as [dx dy].
        rewrite move_unfold in Hop.
        destruct (set_position_keeps_bounds c w grid
                    (fst (position c) + dx, snd (position c) + dy) Hg)
          as (G1 & G2 & _).
        rewrite Hop in G1, G2. auto. }
    by apply IH.
  - intros pos. apply (set_position_keeps_bounds c w grid pos Hg).
  - intros [dx dy]. rewrite move_unfold.
    apply (set_position_keeps_bounds c w grid _ Hg).
Qed.

Lemma grid_position_stays_in_bounds_witness :
  in_grid_bounds grid23
    (position (fst (session [ Move (0, 1); Move (5, 0); PlayAnimation "idle";
                              SetPosition (1, 2); Move (0, 1); Tick ]
                      (blank None (Some grid23), empty_world)))).
Proof.
  apply (grid_position_stays_in_bounds _ (blank None (Some grid23)) empty_world
           grid23 eq_refl).
  unfold in_grid_bounds. vm_compute. repeat split; discriminate.
Defined.

Lemma sumZ_cons (x : Z) (l : list Z) : sumZ (x :: l) = x + sumZ l.
Proof. done. Qed.

Lemma move_frame (c : Character) (w : World) f (dx dy : Z) :
  grid_cells c = None → frame c = Some f →
  ∃ w', move (dx, dy) (c, w)
        = (Returned true,
           (with_position (fst (position c) + dx, snd (position c) + dy) c, w')).
Proof.
  intros Hg Hf. rewrite move_unfold.
  rewrite (set_position_frame c w f _ Hg Hf). eauto.
Qed.

(** X6. In frame mode moves are never refused and add up: after any
    sequence of moves the position is the starting position plus the sum
    of the offsets, componentwise, however far that is from the frame;
    and each move of the sequence returned [True]. *)
Theorem frame_moves_add_up (offsets : list (Z * Z)) (c : Character)
    (w : World) (f : Widget) :
  grid_cells c = None → frame c = Some f →
  position (fst (session (Move <$> offsets) (c, w)))
  = (fst (position c) + sumZ (fst <$> offsets),
     snd (position c) + sumZ (snd <$> offsets)) ∧
  ∀ k offset, offsets !! k = Some offset →
    fst (move offset (session (Move <$> take k offsets) (c, w))) = Returned true.
Proof.
  revert c w. induction offsets as [|[dx dy] offsets IH]; intros c w Hg Hf.
  - split; [|done]. unfold sumZ. simpl. destruct (position c). simpl. f_equal; lia.
  - destruct (move_frame c w f dx dy Hg Hf) as [w1 Hmove].
    set (c1 := with_position (fst (position c) + dx, snd (position c) + dy) c) in *.
    destruct (IH c1 w1 Hg Hf) as [Hpos Hall].
    assert (∀ ops, session (Move (dx, dy) :: ops) (c, w) = session ops (c1, w1))
      as Hstep.
    { intros ops. rewrite session_cons. cbv beta iota delta [perform].
      by rewrite Hmove. }
    split.
    + rewrite fmap_cons, Hstep, Hpos, !fmap_cons, !sumZ_cons. unfold c1.
      cbn [position with_position fst snd]. f_equal; lia.
    + intros [|k] offset Hk.
      * simpl in Hk. inversion Hk; subst.
        change (fst (move (dx, dy) (c, w)) = Returned true). by rewrite Hmove.
      * simpl in Hk. rewrite firstn_cons, fmap_cons, Hstep. by apply Hall.
Qed.

Lemma frame_moves_add_up_witness :
  position (fst (session (Move <$> [(-15, 0); (-15, 0); (0, 15)])
                   (with_position (20, 20) (blank (Some window) None), empty_world)))
  = (-10, 35).
Proof.
  exact (proj1 (frame_moves_add_up [(-15, 0); (-15, 0); (0, 15)]
                  (with_position (20, 20) (blank (Some window) None))
                  empty_world window eq_refl eq_refl)).
Defined.

(** ** The registry: partial calls, exact contents, the constructor *)

Lemma register_duplicate_effect (c : Character) (w : World)
    (pre : list Animation) (a : Animation) (post : list Animation) :
  NoDup (name <$> pre) →
  (∀ b, b ∈ pre → animations c !! name b = None) →
  name a ∈ (name <$> pre) ∨ is_Some (animations c !! name a) →
  ∃ c',
    _register_animations (pre ++ a :: post) (c, w)
    = (Raised (ValueError ("Duplicate animation '" +:+ name a +:+ "'.")), (c', w)) ∧
    (∀ b, b ∈ pre → animations c' !! name b = Some (frames b)) ∧
    (∀ n, n ∉ (name <$> pre) → animations c' !! n = animations c !! n).
Proof.
  intros Hnd Hfresh Hdup.
  destruct (_register_animations_returns pre c w Hnd Hfresh) as [c' Hrun].
  exists c'. rewrite _register_animations_app, Hrun.
  apply _register_animations_spec in Hrun as (_ & _ & Hkeep & Hnew & Hall).
  assert (is_Some (animations c' !! name a)) as [l Hl].
  { destruct Hdup as [Hin|[l Hl]].
    - apply list_elem_of_fmap in Hin as (b & Hb & Hbin).
      rewrite Hb. exists (frames b). by apply Hall.
    - exists l. by apply Hkeep. }
  rewrite _register_animations_cons, Hl.
  split; [done|]. split; [by apply Hall|].
  intros n Hn. destruct (animations c' !! n) as [l'|] eqn:E.
  - destruct (Hnew n l' E) as [Hold|(b & Hb & <- & _)]; [done|].
    exfalso. apply Hn. by apply list_elem_of_fmap_2.
  - destruct (animations c !! n) as [l'|] eqn:E'; [|done].
    apply Hkeep in E'. congruence.
Qed.

(** X9. A registration call that raises is not rolled back.  When the
    arguments before the duplicate are new and distinct, they are all
    registered when [ValueError] is raised; the arguments after the
    duplicate are not looked at, and every other name is as before. *)
Theorem _register_animations_not_rolled_back (c : Character) (w : World)
    (pre : list Animation) (a : Animation) (post : list Animation) :
  NoDup (name <$> pre) →
  (∀ b, b ∈ pre → animations c !! name b = None) →
  name a ∈ (name <$> pre) ∨ is_Some (animations c !! name a) →
  ∃ c',
    _register_animations (pre ++ a :: post) (c, w)
    = (Raised (ValueError ("Duplicate animation '" +:+ name a +:+ "'.")), (c', w)) ∧
    (∀ b, b ∈ pre → animations c' !! name b = Some (frames b)) ∧
    (∀ n, n ∉ (name <$> pre) → animations c' !! n = animations c !! n).
Proof. apply register_duplicate_effect. Qed.

Lemma _register_animations_not_rolled_back_witness :
  ∃ c',
    _register_animations ([look] ++ blink_again :: [blink])
      (with_animations {[ "blink" := 0%nat ]} (blank (Some window) None), demo_world)
    = (Raised (ValueError "Duplicate animation 'blink'."), (c', demo_world)) ∧
    animations c' !! "look" = Some 2%nat.
Proof.
  destruct (_register_animations_not_rolled_back
              (with_animations {[ "blink" := 0%nat ]} (blank (Some window) None))
              demo_world [look] blink_again [blink])
    as (c' & Hrun & Hpre & _).
  - apply NoDup_singleton.
  - intros b Hb. apply list_elem_of_singleton in Hb as ->. reflexivity.
  - right. by exists 0%nat.
  - exists c'. split; [exact Hrun|]. apply (Hpre look), list_elem_of_here.
Defined.

Lemma first_duplicate (anims : list Animation) :
  NoDup (name <$> anims) ∨
  ∃ pre a post, anims = pre ++ a :: post ∧
                NoDup (name <$> pre) ∧ name a ∈ (name <$> pre).
Proof.
  induction anims as [|x l IH] using rev_ind; [left; constructor|].
  destruct IH as [Hnd|(pre & a & post & -> & Hnd & Hin)].
  - destruct (decide (name x ∈ (name <$> l))) as [Hx|Hx].
    + right. by exists l, x, [].
    + left. rewrite fmap_app. apply NoDup_app. split; [done|].
      split; [|apply NoDup_singleton].
      intros n Hn Hn'. apply list_elem_of_singleton in Hn' as ->. done.
  - right. exists pre, a, (post ++ [x]). by rewrite <- app_assoc.
Qed.

(** X10. The constructor returns exactly when the animations it is given
    have distinct names.  Otherwise it raises [ValueError] naming the
    first name that repeats an earlier one, and no object is returned,
    although the wrapper and the label have already been created. *)
Theorem Character_init_returns_iff (master : Widget)
    (anims : option (list Animation)) (pos : Z * Z) (path : string) (sz : Z)
    (bg : string) (fr : option Widget) (gc : option (list (list Widget)))
    (w : World) :
  ((∃ c w', Character_init master anims pos path sz bg fr gc w = (Returned c, w'))
   ↔ NoDup (name <$> given anims)) ∧
  (¬ NoDup (name <$> given anims) →
   ∃ pre a post,
     given anims = pre ++ a :: post ∧
     NoDup (name <$> pre) ∧ name a ∈ (name <$> pre) ∧
     Character_init master anims pos path sz bg fr gc w
     = (Raised (ValueError ("Duplicate animation '" +:+ name a +:+ "'.")),
        init_calls master bg sz w)).
Proof.
  assert (∀ pre a post,
    given anims = pre ++ a :: post →
    NoDup (name <$> pre) → name a ∈ (name <$> pre) →
    Character_init master anims pos path sz bg fr gc w
    = (Raised (ValueError ("Duplicate animation '" +:+ name a +:+ "'.")),
       init_calls master bg sz w)) as Hraise.
  { intros pre a post Hsplit Hnd Hin. rewrite Character_init_unfold.
    destruct anims as [[|a0 rest]|]; simpl in Hsplit;
      try (by destruct pre).
    rewrite Hsplit.
    destruct (register_duplicate_effect
                (fresh_character master pos path sz bg fr gc)
                (init_calls master bg sz w) pre a post Hnd)
      as (c' & -> & _); [|by left|done].
    intros b _. apply lookup_empty. }
  split; [split|].
  - intros (c & w' & Hrun).
    destruct (first_duplicate (given anims)) as [Hnd|(pre & a & post & Hs & Hnd & Hin)];
      [done|].
    rewrite (Hraise pre a post Hs Hnd Hin) in Hrun. discriminate.
  - intros Hnd.
    destruct (Character_init_returns master anims pos path sz bg fr gc w Hnd)
      as (c & Hrun & _). eauto.
  - intros Hdup.
    destruct (first_duplicate (given anims)) as [Hnd|(pre & a & post & Hs & Hnd & Hin)];
      [done|].
    exists pre, a, post. repeat split; try done. by apply (Hraise pre a post).
Qed.

Lemma Character_init_returns_iff_witness :
  Character_init window (Some [blink; look; blink_again]) (0, 0)
    default_images_path 54 default_bg_color (Some window) None demo_world
  = (Raised (ValueError "Duplicate animation 'blink'."),
     init_calls window default_bg_color 54 demo_world).
Proof.
  destruct (Character_init_returns_iff window (Some [blink; look; blink_again])
              (0, 0) default_images_path 54 default_bg_color (Some window) None
              demo_world) as [_ Hraise].
  destruct Hraise as (pre & a & post & Hs & Hnd & Hin & Hrun).
  - intros Hnd. simpl in Hnd. apply NoDup_cons in Hnd as [Hnot _].
    apply Hnot. apply list_elem_of_further, list_elem_of_here.
  - reflexivity.
Defined.

(** X11. A registration call that returns has added exactly its
    arguments: their names were distinct and new, the names registered
    are the old ones and theirs, and the registry has grown by their
    number. *)
Theorem _register_animations_adds_exactly (anims : list Animation) :
  ∀ (c : Character) (w : World) c' w',
    _register_animations anims (c, w) = (Returned tt, (c', w')) →
    NoDup (name <$> anims) ∧
    (∀ a, a ∈ anims → animations c !! name a = None) ∧
    dom (animations c') = dom (animations c) ∪ list_to_set (name <$> anims) ∧
    base.size (animations c') = (base.size (animations c) + length anims)%nat.
Proof.
  induction anims as [|a rest IH]; intros c w c' w' Hrun.
  - simpl in Hrun. unfold ret in Hrun. inversion Hrun; subst.
    split; [constructor|]. split; [by intros a Ha; apply elem_of_nil in Ha|].
    split; [simpl; by rewrite union_empty_r_L|simpl; lia].
  - rewrite _register_animations_cons in Hrun.
    destruct (animations c !! name a) as [l|] eqn:Ea; [done|].
    apply IH in Hrun as (Hnd & Hfresh & Hdom & Hsize). simpl in *.
    assert (name a ∉ (name <$> rest)) as Hna.
    { intros Hin. apply list_elem_of_fmap in Hin as (b & Hb & Hbin).
      specialize (Hfresh b Hbin). rewrite <- Hb, lookup_insert_eq in Hfresh. done. }
    split; [by apply NoDup_cons|]. split; [|split].
    + intros b Hb. apply elem_of_cons in Hb as [->|Hb]; [done|].
      specialize (Hfresh b Hb).
      destruct (decide (name a = name b)) as [E|E].
      * rewrite E, lookup_insert_eq in Hfresh. done.
      * by rewrite lookup_insert_ne in Hfresh.
    + rewrite Hdom, dom_insert_L.
      by rewrite (comm_L (∪) {[name a]} (dom (animations c))), <- (assoc_L (∪)).
    + rewrite Hsize, map_size_insert_None by done. lia.
Qed.

Lemma _register_animations_adds_exactly_witness :
  let r := _register_animations [blink; look] (blank (Some window) None, demo_world) in
  base.size (animations (fst (snd r))) = 2%nat.
Proof.
  intros r.
  destruct (_register_animations_adds_exactly [blink; look]
              (blank (Some window) None) demo_world (fst (snd r)) (snd (snd r)))
    as (_ & _ & _ & Hsize); [reflexivity|exact Hsize].
Defined.

(** X12. After construction the registry holds the animations given and
    nothing else: a name maps to the frames of the animation given under
    it, and [get_animation_frames] of any other name raises [KeyError]
    and changes nothing. *)
Theorem registry_is_what_was_given (master : Widget)
    (anims : option (list Animation)) (pos : Z * Z) (path : string) (sz : Z)
    (bg : string) (fr : option Widget) (gc : option (list (list Widget)))
    (w : World) (c : Character) (w' : World) :
  Character_init master anims pos path sz bg fr gc w = (Returned c, w') →
  ∀ n,
    animations c !! n = frames <$> first_named n (given anims) ∧
    (n ∉ (name <$> given anims) →
       ∀ w2, get_animation_frames n (c, w2) = (Raised (KeyError n), (c, w2))).
Proof.
  intros Hrun n.
  assert (∀ l, animations c !! n = Some l →
               ∃ a, a ∈ given anims ∧ name a = n ∧ frames a = l) as Hnew.
  { rewrite Character_init_unfold in Hrun.
    destruct anims as [[|a0 rest]|];
      try (inversion Hrun; subst; intros l Hl; simpl in Hl;
           by rewrite lookup_empty in Hl).
    destruct (_register_animations (a0 :: rest) _) as [[[]|e] [c1 w1]] eqn:Hreg;
      [|done].
    inversion Hrun; subst.
    apply _register_animations_spec in Hreg as (_ & _ & _ & Hnew & _).
    intros l Hl. destruct (Hnew n l Hl) as [Hold|H]; [|done].
    simpl in Hold. by rewrite lookup_empty in Hold. }
  pose proof (Character_init_returned _ _ _ _ _ _ _ _ _ _ _ Hrun) as Hall.
  split.
  - unfold first_named. destruct (find _ (given anims)) as [a|] eqn:Efind.
    + apply find_some in Efind as [Ha Hn]. apply bool_decide_eq_true in Hn.
      simpl. rewrite <- Hn. apply Hall. by apply list_elem_of_In.
    + simpl. destruct (animations c !! n) as [l|] eqn:El; [|done].
      destruct (Hnew l eq_refl) as (a & Ha & Hn & _).
      apply list_elem_of_In in Ha.
      pose proof (find_none _ _ Efind a Ha) as Hf. simpl in Hf.
      apply bool_decide_eq_false in Hf. done.
  - intros Hn w2. unfold get_animation_frames. unfold_m. simpl.
    destruct (animations c !! n) as [l|] eqn:El; [|done].
    destruct (Hnew l eq_refl) as (a & Ha & <- & _).
    exfalso. apply Hn. by apply list_elem_of_fmap_2.
Qed.

Lemma registry_is_what_was_given_witness :
  let c := with_animations (<["look" := 2%nat]> {[ "blink" := 0%nat ]})
             (fresh_character window (0, 0) default_images_path 54
                default_bg_color (Some window) None) in
  animations c !! "look" = Some 2%nat ∧
  get_animation_frames "jump" (c, demo_world) = (Raised (KeyError "jump"), (c, demo_world)).
Proof.
  intros c.
  assert (Character_init window (Some [blink; look]) (0, 0) default_images_path 54
            default_bg_color (Some window) None demo_world
          = (Returned c, init_calls window default_bg_color 54 demo_world)) as Hrun
    by reflexivity.
  destruct (registry_is_what_was_given _ _ _ _ _ _ _ _ _ _ _ Hrun "look")
    as [Hlook _].
  destruct (registry_is_what_was_given _ _ _ _ _ _ _ _ _ _ _ Hrun "jump")
    as [_ Hmissing].
  split; [exact Hlook|].
  apply Hmissing. simpl. intros H.
  apply elem_of_cons in H as [H|H]; [discriminate H|].
  apply list_elem_of_singleton in H. discriminate H.
Defined.

(** ** The demo applications *)

(** The world after the one-frame animation "idle" has been built. *)
Lemma idle_animation (w : World) :
  let f := length (frame_objs w) in
  let l := length (list_objs w) in
  let fr := {| filename := "blue_square_blink_0001.png"; duration := 250 |} in
  let w1 := with_list_objs (list_objs w ++ [[f]])
              (with_frame_objs (frame_objs w ++ [fr]) w) in
  (f <- AnimationFrame_init "blue_square_blink_0001.png" None ;;
   l <- new_list [f] ;;
   Animation_init "idle" l) w
  = (Returned {| name := "idle"; frames := l |}, w1) ∧
  list_objs w1 !! l = Some [f] ∧ frame_objs w1 !! f = Some fr.
Proof.
  cbv zeta.
  assert ((list_objs w ++ [[length (frame_objs w)]]) !! length (list_objs w)
          = Some [length (frame_objs w)]) as Hl by (by apply list_lookup_middle).
  split; [|split; [exact Hl|by apply list_lookup_middle]].
  unfold AnimationFrame_init, new_list, Animation_init, deref_list.
  unfold_m. simpl. unfold loc in *. by rewrite Hl.
Qed.

(** The constructor on the single animation "idle". *)
Lemma Character_init_idle master l pos path sz bg fr gc (w : World) :
  Character_init master (Some [ {| name := "idle"; frames := l |} ])
    pos path sz bg fr gc w
  = (Returned (with_animations {[ "idle" := l ]}
                 (fresh_character master pos path sz bg fr gc)),
     init_calls master bg sz w).
Proof.
  rewrite Character_init_unfold, _register_animations_cons. simpl.
  rewrite lookup_empty. by rewrite insert_empty.
Qed.

Lemma with_object_returned {A} (c : Character) (m : M St A) (w : World) a c' w' :
  m (c, w) = (Returned a, (c', w')) →
  with_object c m w = (Returned (a, c'), w').
Proof. intros H. unfold with_object. by rewrite H. Qed.

(** [_spawn_character] of the free-movement window returns, whatever the
    world and the widgets: the player is in frame mode at (20, 20). *)
Lemma free_spawn (window play_area : Widget) (w : World) :
  ∃ c w', Exemple2._spawn_character window play_area w = (Returned c, w') ∧
          grid_cells c = None ∧ frame c = Some play_area ∧
          position c = Exemple2.INITIAL_POSITION.
Proof.
  destruct (idle_animation w) as (Hidle & Hl & Hf).
  set (f := length (frame_objs w)) in *. set (l := length (list_objs w)) in *.
  set (w1 := with_list_objs _ _) in *.
  set (c1 := with_animations {[ "idle" := l ]}
               (fresh_character window default_position Exemple2.IMAGE_ASSETS_PATH
                  Exemple2.DEFAULT_SIZE "#1E2A3A" (Some play_area) None)).
  set (w2 := init_calls window "#1E2A3A" Exemple2.DEFAULT_SIZE w1).
  assert (Exemple2.FreeMovementCharacter_init window play_area w = (Returned c1, w2))
    as Hinit.
  { unfold Exemple2.FreeMovementCharacter_init.
    change (bind (AnimationFrame_init "blue_square_blink_0001.png" None) _ w)
      with (match (f <- AnimationFrame_init "blue_square_blink_0001.png" None ;;
                   l <- new_list [f] ;; Animation_init "idle" l) w with
            | (Returned a, s') =>
                Character_init window (Some [a]) default_position
                  Exemple2.IMAGE_ASSETS_PATH Exemple2.DEFAULT_SIZE "#1E2A3A"
                  (Some play_area) None s'
            | (Raised e, s') => (Raised e, s')
            end).
    rewrite Hidle. apply Character_init_idle. }
  set (c2 := with_position Exemple2.INITIAL_POSITION c1).
  set (w3 := call (PlaceIn play_area 20 20) (call GridForget (call PlaceForget w2))).
  assert (set_position Exemple2.INITIAL_POSITION (c1, w2) = (Returned true, (c2, w3)))
    as Hset by (by apply set_position_frame).
  assert (play_animation "idle" (c2, w3)
          = (Returned tt, (with_active_animation_name (Some "idle") c2,
                           after 250 l 0 w3))) as Hplay.
  { apply (play_animation_schedules c2 w3 "idle" l f []
             {| filename := "blue_square_blink_0001.png"; duration := 250 |});
      done. }
  exists (with_active_animation_name (Some "idle") c2), (after 250 l 0 w3).
  split; [|done].
  unfold Exemple2._spawn_character. unfold bind at 1. rewrite Hinit.
  unfold bind at 1. rewrite (with_object_returned _ _ _ _ _ _ Hset).
  unfold bind at 1. simpl snd. rewrite (with_object_returned _ _ _ _ _ _ Hplay).
  done.
Qed.

Lemma key_offsets_cons (keys : gmap string (Z * Z)) ev evs :
  key_offsets keys (ev :: evs) = key_offsets keys [ev] ++ key_offsets keys evs.
Proof.
  unfold key_offsets. simpl.
  destruct ev as [keysym| |]; [|done|done]. by destruct (keys !! keysym).
Qed.

Lemma deliver_all_cons on_key ev evs (app : App) :
  deliver_all on_key (ev :: evs) app = deliver_all on_key evs (deliver on_key ev app).
Proof. done. Qed.

(** A mapped key in the free-movement window: the move is made and the
    label rewritten. *)
Lemma free_keypress (app : App) (play_area : Widget) keysym (dx dy : Z) :
  grid_cells (fst (player app)) = None →
  frame (fst (player app)) = Some play_area →
  Exemple2.MOVEMENT_KEYS !! keysym = Some (dx, dy) →
  let target := (fst (position (fst (player app))) + dx,
                 snd (position (fst (player app))) + dy) in
  ∃ w', Exemple2._handle_keypress keysym app
        = (Returned tt,
           with_label_text (format_position target)
             (with_player (with_position target (fst (player app)), w') app)).
Proof.
  intros Hg Hf Hkey target. destruct app as [[c w] text color tm]. simpl in *.
  destruct (move_frame c w play_area dx dy Hg Hf) as [w' Hmove].
  exists w'. unfold Exemple2._handle_keypress. rewrite Hkey.
  unfold bind at 1. unfold on_player at 1.
  cbv beta iota delta [player]. rewrite Hmove. done.
Qed.

(** One event in the free-movement window. *)
Lemma free_deliver (play_area : Widget) (ev : Event) (app : App) :
  free_window_ok play_area app →
  let app' := deliver Exemple2._handle_keypress ev app in
  free_window_ok play_area app' ∧
  position (fst (player app'))
  = match key_offsets Exemple2.MOVEMENT_KEYS [ev] with
    | [offset] => (fst (position (fst (player app))) + fst offset,
                   snd (position (fst (player app))) + snd offset)
    | _ => position (fst (player app))
    end.
Proof.
  intros (Hg & Hf & Htext & Hcolor & Htimers).
  destruct ev as [keysym| |]; cbv zeta; cbv beta iota delta [deliver].
  - change (key_offsets Exemple2.MOVEMENT_KEYS [KeyPress keysym])
      with (match Exemple2.MOVEMENT_KEYS !! keysym with
            | Some offset => [offset]
            | None => []
            end).
    destruct (Exemple2.MOVEMENT_KEYS !! keysym) as [[dx dy]|] eqn:Hkey.
    + destruct (free_keypress app play_area keysym dx dy Hg Hf Hkey) as [w' ->].
      by simpl.
    + unfold Exemple2._handle_keypress. rewrite Hkey. by simpl.
  - destruct app as [[c w] text color tm]. simpl in *.
    destruct (tick (c, w)) as [[c' w']|] eqn:E; simpl; [|done].
    apply tick_character in E. rewrite E. by simpl.
  - unfold fire_app_timer. by rewrite Htimers.
Qed.

(** X15. In the free-movement window no key press is ever refused.  From
    the start of the application and for any sequence of key presses and
    timer events, the position is (20, 20) plus the sum of the offsets of
    the keys pressed (keys that are not in the table count for nothing),
    so the character can leave the play area; the label shows that
    position; and the invalid-move feedback never happens: the label
    keeps its colour and the window schedules no callback. *)
Theorem free_movement_keys_add_up (window play_area : Widget) (w : World)
    (evs : list Event) :
  ∃ app0,
    Exemple2.FreeMovementApp_init window play_area w = Returned app0 ∧
    let app := deliver_all Exemple2._handle_keypress evs app0 in
    let offsets := key_offsets Exemple2.MOVEMENT_KEYS evs in
    position (fst (player app))
    = (20 + sumZ (fst <$> offsets), 20 + sumZ (snd <$> offsets)) ∧
    label_text app = format_position (position (fst (player app))) ∧
    label_color app = "#7FBADC" ∧
    app_timers app = [].
Proof.
  destruct (free_spawn window play_area w) as (c & w' & Hspawn & Hg & Hf & Hpos).
  eexists. split.
  { unfold Exemple2.FreeMovementApp_init. rewrite Hspawn. reflexivity. }
  set (app0 := {| player := (c, w') |}).
  assert (free_window_ok play_area app0) as Hok.
  { unfold free_window_ok. simpl. by rewrite Hpos. }
  assert (position (fst (player app0)) = (20, 20)) as Hstart by exact Hpos.
  clearbody app0. clear Hspawn Hg Hf Hpos.
  assert (∀ evs app x y,
    free_window_ok play_area app → position (fst (player app)) = (x, y) →
    let app' := deliver_all Exemple2._handle_keypress evs app in
    let offsets := key_offsets Exemple2.MOVEMENT_KEYS evs in
    free_window_ok play_area app' ∧
    position (fst (player app'))
    = (x + sumZ (fst <$> offsets), y + sumZ (snd <$> offsets))) as Hgen.
  { clear. induction evs as [|ev evs IH]; intros app x y Hok Hpos.
    - simpl. split; [done|]. rewrite Hpos. unfold sumZ. simpl. f_equal; lia.
    - rewrite deliver_all_cons.
      destruct (free_deliver play_area ev app Hok) as [Hok' Hpos'].
      rewrite (key_offsets_cons Exemple2.MOVEMENT_KEYS ev evs).
      destruct (key_offsets Exemple2.MOVEMENT_KEYS [ev]) as [|[dx dy] [|? ?]] eqn:Ek.
      + rewrite Hpos in Hpos'. apply (IH _ x y Hok' Hpos').
      + rewrite Hpos in Hpos'. simpl in Hpos'.
        destruct (IH _ (x + dx) (y + dy) Hok' Hpos') as [Hok2 Hpos2].
        split; [done|]. rewrite Hpos2. cbn [List.app].
        rewrite !fmap_cons, !sumZ_cons. simpl. f_equal; lia.
      + exfalso. destruct ev; simpl in Ek; try discriminate.
        destruct (Exemple2.MOVEMENT_KEYS !! keysym); discriminate. }
  destruct (Hgen evs app0 20 20 Hok Hstart) as [(_ & _ & Htext & Hcolor & Htm) Hpos].
  done.
Qed.

(** The offsets of the grid window: one step along one axis. *)
Lemma grid_key_offsets keysym (offset : Z * Z) :
  Exemple1.MOVEMENT_KEYS !! keysym = Some offset →
  offset ∈ [(-1, 0); (1, 0); (0, -1); (0, 1)].
Proof.
  intros H. apply elem_of_list_to_map_2 in H.
  repeat (apply elem_of_cons in H as [H|H];
          [inversion H; subst; set_solver|]).
  by apply elem_of_nil in H.
Qed.

Lemma grid_key_offset_nonzero keysym (offset : Z * Z) (p : Z * Z) :
  Exemple1.MOVEMENT_KEYS !! keysym = Some offset →
  (fst p + fst offset, snd p + snd offset) ≠ p.
Proof.
  intros H. apply grid_key_offsets in H. destruct p as [x y].
  repeat (apply elem_of_cons in H as [->|H]; [simpl; intros [=]; lia|]).
  by apply elem_of_nil in H.
Qed.

(** X16. In the grid window the invalid-move feedback happens exactly
    when the move is refused.  A key that is not in the table does
    nothing.  A key of the table schedules the label update; if the cell
    it leads to is within the bounds the player moves there and the label
    keeps its colour; otherwise the player stays, the label turns red and
    the window schedules the return to the normal colour. *)
Theorem grid_keypress_feedback (app : App) (grid : list (list Widget))
    (keysym : string) :
  grid_cells (fst (player app)) = Some grid →
  let c := fst (player app) in
  let now := clock (snd (player app)) in
  (Exemple1.MOVEMENT_KEYS !! keysym = None →
     Exemple1._on_keypress keysym app = (Returned tt, app)) ∧
  (∀ dx dy, Exemple1.MOVEMENT_KEYS !! keysym = Some (dx, dy) →
     let target := (fst (position c) + dx, snd (position c) + dy) in
     ∃ app', Exemple1._on_keypress keysym app = (Returned tt, app') ∧
       label_text app' = label_text app ∧
       (in_grid_bounds grid target →
          position (fst (player app')) = target ∧
          label_color app' = label_color app ∧
          app_timers app' = app_timers app ++ [(now + 200, UpdatePositionLabel)]) ∧
       (¬ in_grid_bounds grid target →
          player app' = player app ∧
          label_color app' = "#FF6B6B" ∧
          app_timers app'
          = app_timers app ++ [(now + 200, UpdatePositionLabel);
                               (now + 200, RestoreLabelColor "#7FBADC")])).
Proof.
  intros Hg c now. split.
  - intros Hkey. unfold Exemple1._on_keypress. by rewrite Hkey.
  - intros dx dy Hkey target.
    pose proof (grid_key_offset_nonzero keysym (dx, dy) (position c) Hkey) as Hne.
    simpl in Hne. fold target in Hne.
    destruct app as [[c0 w] text color tm]. simpl in *. subst c now.
    destruct (set_position_grid c0 w grid target Hg) as [Hin Hout].
    unfold Exemple1._on_keypress. rewrite Hkey.
    unfold bind at 1. unfold get at 1. unfold bind at 1. unfold on_player at 1.
    cbv beta iota delta [player]. rewrite move_unfold. fold target.
    destruct (in_grid_bounds_decide grid target) as [H|H].
    + destruct (Hin H) as (w' & -> & _ & _ & _ & _ & Hclock).
      unfold app_after. unfold_m. simpl.
      rewrite bool_decide_eq_false_2 by done. simpl.
      eexists. split; [reflexivity|]. simpl. rewrite Hclock.
      split; [done|]. split; [done|]. intros Hno. done.
    + rewrite (Hout H).
      unfold app_after, _flash_invalid_move, app_after. unfold_m. simpl.
      rewrite bool_decide_eq_true_2 by done. simpl.
      eexists. split; [reflexivity|]. simpl.
      split; [done|]. split; [done|]. intros _.
      by rewrite <- app_assoc.
Qed.

Lemma grid_keypress_feedback_witness :
  ∃ app', Exemple1._on_keypress "Down" demo_grid_app = (Returned tt, app') ∧
          player app' = player demo_grid_app ∧
          label_color app' = "#FF6B6B" ∧
          app_timers app' = [(200, UpdatePositionLabel);
                             (200, RestoreLabelColor "#7FBADC")].
Proof.
  destruct (grid_keypress_feedback demo_grid_app grid23 "Down" eq_refl)
    as [_ Hkey].
  destruct (Hkey 1 0 eq_refl) as (app' & Hrun & _ & _ & Hout).
  exists app'. split; [exact Hrun|]. apply Hout.
  unfold in_grid_bounds. vm_compute. intros [[_ H] _]. discriminate H.
Defined.

(** What a key press of the grid window does to the player: the move of
    the key, and nothing else. *)
Lemma grid_keypress_player (app : App) (keysym : string) :
  player (snd (Exemple1._on_keypress keysym app))
  = match Exemple1.MOVEMENT_KEYS !! keysym with
    | Some offset => snd (move offset (player app))
    | None => player app
    end.
Proof.
  unfold Exemple1._on_keypress.
  destruct (Exemple1.MOVEMENT_KEYS !! keysym) as [offset|]; [|done].
  unfold bind at 1. unfold get at 1. unfold bind at 1. unfold on_player at 1.
  destruct (move offset (player app)) as [[b|e] s'] eqn:Hmove; [|done].
  unfold app_after, _flash_invalid_move, app_after. unfold_m. simpl.
  by destruct (bool_decide _).
Qed.

Lemma fire_app_timer_player (app : App) : player (fire_app_timer app) = player app.
Proof.
  unfold fire_app_timer. by destruct (app_timers app) as [|[t [|color]] q].
Qed.

(** [_spawn_character] of the grid window returns, whatever the world,
    the window and the grid: the player is in grid mode, at (1, 0) when
    the grid has that cell within its bounds and at (0, 0) otherwise. *)
Lemma grid_spawn (window : Widget) (grid : list (list Widget)) (w : World) :
  ∃ c w', Exemple1._spawn_character window grid w = (Returned c, w') ∧
          grid_cells c = Some grid ∧
          (in_grid_bounds grid Exemple1.INITIAL_POSITION →
             position c = Exemple1.INITIAL_POSITION) ∧
          (¬ in_grid_bounds grid Exemple1.INITIAL_POSITION →
             position c = default_position).
Proof.
  destruct (idle_animation w) as (Hidle & Hl & Hf).
  set (f := length (frame_objs w)) in *. set (l := length (list_objs w)) in *.
  set (w1 := with_list_objs _ _) in *.
  set (c1 := with_animations {[ "idle" := l ]}
               (fresh_character window default_position Exemple1.IMAGE_ASSETS_PATH
                  Exemple1.DEFAULT_SIZE "#1E2A3A" None (Some grid))).
  set (w2 := init_calls window "#1E2A3A" Exemple1.DEFAULT_SIZE w1).
  assert (Exemple1.GridCharacter_init window grid w = (Returned c1, w2)) as Hinit.
  { unfold Exemple1.GridCharacter_init.
    change (bind (AnimationFrame_init "blue_square_blink_0001.png" None) _ w)
      with (match (f <- AnimationFrame_init "blue_square_blink_0001.png" None ;;
                   l <- new_list [f] ;; Animation_init "idle" l) w with
            | (Returned a, s') =>
                Character_init window (Some [a]) default_position
                  Exemple1.IMAGE_ASSETS_PATH Exemple1.DEFAULT_SIZE "#1E2A3A"
                  None (Some grid) s'
            | (Raised e, s') => (Raised e, s')
            end).
    rewrite Hidle. apply Character_init_idle. }
  assert (∃ b c2 w3,
    set_position Exemple1.INITIAL_POSITION (c1, w2) = (Returned b, (c2, w3)) ∧
    animations c2 = animations c1 ∧ grid_cells c2 = Some grid ∧
    frame_objs w3 = frame_objs w1 ∧ list_objs w3 = list_objs w1 ∧
    (in_grid_bounds grid Exemple1.INITIAL_POSITION →
       position c2 = Exemple1.INITIAL_POSITION) ∧
    (¬ in_grid_bounds grid Exemple1.INITIAL_POSITION →
       position c2 = default_position))
    as (b & c2 & w3 & Hset & Hanim & Hgrid & Hfo & Hlo & Hin & Hout).
  { destruct (set_position_grid c1 w2 grid Exemple1.INITIAL_POSITION eq_refl)
      as [Hin Hout].
    destruct (in_grid_bounds_decide grid Exemple1.INITIAL_POSITION) as [H|H].
    - destruct (Hin H) as (w3 & Hrun & Hfo & Hlo & _).
      exists true, (with_position Exemple1.INITIAL_POSITION c1), w3.
      by repeat split.
    - exists false, c1, w2. rewrite (Hout H). by repeat split. }
  assert (play_animation "idle" (c2, w3)
          = (Returned tt, (with_active_animation_name (Some "idle") c2,
                           after 250 l 0 w3))) as Hplay.
  { apply (play_animation_schedules c2 w3 "idle" l f []
             {| filename := "blue_square_blink_0001.png"; duration := 250 |}).
    - by rewrite Hanim.
    - by rewrite Hlo.
    - by rewrite Hfo. }
  exists (with_active_animation_name (Some "idle") c2), (after 250 l 0 w3).
  split; [|done].
  unfold Exemple1._spawn_character. unfold bind at 1. rewrite Hinit.
  unfold bind at 1. rewrite (with_object_returned _ _ _ _ _ _ Hset).
  unfold bind at 1. simpl snd. rewrite (with_object_returned _ _ _ _ _ _ Hplay).
  done.
Qed.

(** X17. In the grid window the player cannot leave the grid.  When the
    grid holds the initial cell (1, 0) within its bounds, the application
    starts with the player there, and after any sequence of key presses,
    timers of the character and timers of the window the player is still
    in grid mode at a position within the bounds. *)
Theorem grid_window_stays_on_grid (window : Widget)
    (grid : list (list Widget)) (w : World) (evs : list Event) :
  in_grid_bounds grid Exemple1.INITIAL_POSITION →
  ∃ app0,
    Exemple1.GridGameApp_init window grid w = Returned app0 ∧
    position (fst (player app0)) = (1, 0) ∧
    let app := deliver_all Exemple1._on_keypress evs app0 in
    grid_cells (fst (player app)) = Some grid ∧
    in_grid_bounds grid (position (fst (player app))).
Proof.
  intros Hinit.
  destruct (grid_spawn window grid w) as (c & w' & Hspawn & Hg & Hpos & _).
  eexists. split.
  { unfold Exemple1.GridGameApp_init. rewrite Hspawn. reflexivity. }
  split; [by apply Hpos|].
  set (app0 := {| player := (c, w') |}).
  assert (grid_cells (fst (player app0)) = Some grid) as Hg0 by exact Hg.
  assert (in_grid_bounds grid (position (fst (player app0)))) as Hin0
    by (simpl; by rewrite (Hpos Hinit)).
  clearbody app0. clear - Hg0 Hin0. revert app0 Hg0 Hin0.
  induction evs as [|ev evs IH]; intros app Hg Hin; [done|].
  rewrite deliver_all_cons. apply IH.
  - destruct ev as [keysym| |]; cbv beta iota delta [deliver].
    + rewrite grid_keypress_player.
      destruct (Exemple1.MOVEMENT_KEYS !! keysym) as [[dx dy]|]; [|done].
      destruct app as [[c w] ? ? ?]. cbn [player fst] in *. rewrite move_unfold.
      apply (set_position_keeps_bounds c w grid _ Hg).
    + destruct app as [[c w] ? ? ?]. simpl in *.
      destruct (tick (c, w)) as [[c' w']|] eqn:E; simpl; [|done].
      apply tick_character in E. by rewrite E.
    + by rewrite fire_app_timer_player.
  - destruct ev as [keysym| |]; cbv beta iota delta [deliver].
    + rewrite grid_keypress_player.
      destruct (Exemple1.MOVEMENT_KEYS !! keysym) as [[dx dy]|]; [|done].
      destruct app as [[c w] ? ? ?]. cbn [player fst] in *. rewrite move_unfold.
      destruct (set_position_keeps_bounds c w grid
                  (fst (position c) + dx, snd (position c) + dy) Hg)
        as (_ & Hkeep & _).
      by apply Hkeep.
    + destruct app as [[c w] ? ? ?]. simpl in *.
      destruct (tick (c, w)) as [[c' w']|] eqn:E; simpl; [|done].
      apply tick_character in E. by rewrite E.
    + by rewrite fire_app_timer_player.
Qed.

Lemma grid_window_stays_on_grid_witness :
  ∃ app0,
    Exemple1.GridGameApp_init window grid23 empty_world = Returned app0 ∧
    in_grid_bounds grid23
      (position (fst (player (deliver_all Exemple1._on_keypress
                                [KeyPress "Down"; KeyPress "d"; TimerTick;
                                 KeyPress "x"; AppTimer; KeyPress "Up"] app0)))).
Proof.
  destruct (grid_window_stays_on_grid window grid23 empty_world
              [KeyPress "Down"; KeyPress "d"; TimerTick;
               KeyPress "x"; AppTimer; KeyPress "Up"])
    as (app0 & Hinit & _ & _ & Hin).
  - unfold in_grid_bounds. vm_compute. repeat split; discriminate.
  - exists app0. split; [exact Hinit|exact Hin].
Defined.

(** X18. In grid mode an accepted move can be undone when it started
    within the bounds: the opposite offset is accepted too and brings the
    stored position back.  (From a position outside the bounds, where the
    constructor may have left the character, this fails: the way back is
    refused.) *)
Theorem grid_move_can_be_undone (c : Character) (w : World)
    (grid : list (list Widget)) (dx dy : Z) (c1 : Character) (w1 : World) :
  grid_cells c = Some grid →
  in_grid_bounds grid (position c) →
  move (dx, dy) (c, w) = (Returned true, (c1, w1)) →
  ∃ w2, move (- dx, - dy) (c1, w1)
        = (Returned true, (with_position (position c) c1, w2)) ∧
        position (with_position (position c) c1) = position c.
Proof.
  intros Hg Hin Hmove. rewrite move_unfold in Hmove.
  apply set_position_returned in Hmove as Hc1. simpl in Hc1. subst c1.
  rewrite move_unfold. simpl.
  destruct (set_position_grid
              (with_position (fst (position c) + dx, snd (position c) + dy) c) w1
              grid (fst (position c) + dx + - dx, snd (position c) + dy + - dy) Hg)
    as [Hback _].
  destruct Hback as (w2 & Hrun & _).
  { replace (fst (position c) + dx + - dx) with (fst (position c)) by lia.
    replace (snd (position c) + dy + - dy) with (snd (position c)) by lia.
    by destruct (position c). }
  exists w2. split; [|done]. rewrite Hrun. f_equal. f_equal.
  replace (fst (position c) + dx + - dx) with (fst (position c)) by lia.
  replace (snd (position c) + dy + - dy) with (snd (position c)) by lia.
  by destruct (position c).
Qed.

Lemma grid_move_can_be_undone_witness :
  let s := (with_position (1, 1) (blank None (Some grid23)), empty_world) in
  let s1 := snd (move (0, 1) s) in
  ∃ w2, move (- 0, - 1) s1
        = (Returned true, (with_position (1, 1) (fst s1), w2)).
Proof.
  intros s s1.
  destruct (grid_move_can_be_undone (fst s) (snd s) grid23 0 1 (fst s1) (snd s1))
    as (w2 & Hrun & _).
  - reflexivity.
  - unfold in_grid_bounds. vm_compute. repeat split; discriminate.
  - reflexivity.
  - exists w2. exact Hrun.
Defined.

(** Without the hypothesis: from (5, 5), outside the 2 x 3 grid, the move
    to (1, 1) is accepted and the way back is refused. *)
Example grid_move_from_outside_not_undone :
  let s := (with_position (5, 5) (blank None (Some grid23)), empty_world) in
  fst (move (-4, -4) s) = Returned true ∧
  fst (move (4, 4) (snd (move (-4, -4) s))) = Returned false.
Proof. split; reflexivity. Qed.
